(** * Cache, rate limiter and single-flight queue of the user data API

    A shallow embedding of three services of the repository:
    - [LRUCache]   (services/cacheService.ts): an insertion-ordered map with
      a time-to-live and a separately tracked statistics record;
    - [RateLimiter] (services/rateLimiter.ts): the dual-window admission check;
    - [QueueService] (services/queueService.ts): the job queue that collapses
      concurrent fetches of one user into one upstream call.

    JavaScript runs every synchronous stretch of code to completion, so the
    asynchronous service is modelled by one transition per stretch between two
    [await]s; the clock ([Date.now()]) and the upstream database are inputs of
    the environment. *)

From Stdlib Require Import ZArith QArith_base Lia.
From stdpp Require Import gmap strings list.

Local Open Scope string_scope.
Local Open Scope list_scope.
Local Open Scope Z_scope.

(** The [User] of types/index.ts, as the mock database stores it. *)
Record User := mkUser { id : Z; name : string; email : string }.

(** The rows of [mockUsers] in database/userDatabase.ts. *)
Definition john : User := mkUser 1 "John Doe" "john@example.com".
Definition jane : User := mkUser 2 "Jane Smith" "jane@example.com".
Definition alice : User := mkUser 3 "Alice Johnson" "alice@example.com".

(** ** The insertion-ordered [Map] of JavaScript

    A [Map] iterates in insertion order and the cache relies on it, so the map
    is an association list: [Map_set] overwrites in place when the key is
    there and appends otherwise, [Map_delete] removes the key. *)
Section JSMap.
Context {V : Type}.

Fixpoint Map_get (k : string) (m : list (string * V)) : option V :=
  match m with
  | [] => None
  | (k', v) :: m' => if String.eqb k k' then Some v else Map_get k m'
  end.

Definition Map_has (k : string) (m : list (string * V)) : bool :=
  match Map_get k m with Some _ => true | None => false end.

Fixpoint Map_delete (k : string) (m : list (string * V)) : list (string * V) :=
  match m with
  | [] => []
  | (k', v) :: m' => if String.eqb k k' then m' else (k', v) :: Map_delete k m'
  end.

Fixpoint Map_set (k : string) (v : V) (m : list (string * V)) : list (string * V) :=
  match m with
  | [] => [(k, v)]
  | (k', v') :: m' =>
      if String.eqb k k' then (k, v) :: m' else (k', v') :: Map_set k v m'
  end.

Definition Map_size (m : list (string * V)) : Z := Z.of_nat (length m).

(** [m.keys().next().value]: the first key, [undefined] on an empty map. *)
Definition Map_first_key (m : list (string * V)) : option string :=
  match m with
  | [] => None
  | (k, _) :: _ => Some k
  end.

Definition Map_keys (m : list (string * V)) : list string := m.*1.
End JSMap.

(** Truthiness of a [string | undefined]: [undefined] and the empty string
    are falsy. *)
Definition truthy (o : option string) : bool :=
  match o with
  | None => false
  | Some s => negb (String.eqb s "")
  end.

(** ** services/cacheService.ts *)
Module Cache.

Record CacheItem := mkItem { data : User; timestamp : Z; accessTime : Z }.

(** [averageResponseTime] is a quotient of two integers; it is kept as the
    exact fraction. *)
Record CacheStats := mkStats {
  hits : Z;
  misses : Z;
  size : Z;
  totalRequests : Z;
  averageResponseTime : Q;
  totalResponseTime : Z
}.

(** The object state, and [reads]: how many times [Date.now()] was read so
    far, the position in the clock of the environment. [cleanupInterval]
    tells whether the periodic timer is armed. *)
Record LRUCache := mkCache {
  cache : list (string * CacheItem);
  stats : CacheStats;
  cleanupInterval : bool;
  reads : nat
}.

Definition stats0 : CacheStats := mkStats 0 0 0 0 (Qmake 0 1) 0.

Definition with_cache (c : list (string * CacheItem)) (s : LRUCache) : LRUCache :=
  mkCache c (stats s) (cleanupInterval s) (reads s).
Definition with_stats (st : CacheStats) (s : LRUCache) : LRUCache :=
  mkCache (cache s) st (cleanupInterval s) (reads s).

Definition add_hits (d : Z) (st : CacheStats) : CacheStats :=
  mkStats (hits st + d) (misses st) (size st) (totalRequests st)
          (averageResponseTime st) (totalResponseTime st).
Definition add_misses (d : Z) (st : CacheStats) : CacheStats :=
  mkStats (hits st) (misses st + d) (size st) (totalRequests st)
          (averageResponseTime st) (totalResponseTime st).
Definition add_size (d : Z) (st : CacheStats) : CacheStats :=
  mkStats (hits st) (misses st) (size st + d) (totalRequests st)
          (averageResponseTime st) (totalResponseTime st).
Definition set_size (n : Z) (st : CacheStats) : CacheStats :=
  mkStats (hits st) (misses st) n (totalRequests st)
          (averageResponseTime st) (totalResponseTime st).

(** A state monad over the cache object. *)
Definition M (A : Type) : Type := LRUCache -> A * LRUCache.
Definition ret {A} (a : A) : M A := fun s => (a, s).
Definition bind {A B} (m : M A) (k : A -> M B) : M B :=
  fun s => let (a, s') := m s in k a s'.

Declare Scope cache_scope.
Delimit Scope cache_scope with cache.
Notation "x <- m ;; k" := (bind m (fun x => k))
  (at level 100, m at next level, right associativity) : cache_scope.
Notation "m ;; k" := (bind m (fun _ => k))
  (at level 100, right associativity) : cache_scope.
Local Open Scope cache_scope.

Definition the_cache : M (list (string * CacheItem)) := fun s => (cache s, s).
Definition cache_delete (k : string) : M bool :=
  fun s => (Map_has k (cache s), with_cache (Map_delete k (cache s)) s).
Definition cache_set (k : string) (v : CacheItem) : M unit :=
  fun s => (tt, with_cache (Map_set k v (cache s)) s).
Definition cache_clear : M unit := fun s => (tt, with_cache [] s).
Definition upd_stats (f : CacheStats -> CacheStats) : M unit :=
  fun s => (tt, with_stats (f (stats s)) s).

Fixpoint forEach {A} (l : list A) (f : A -> M unit) : M unit :=
  match l with
  | [] => ret tt
  | a :: l' => f a ;; forEach l' f
  end.

Section WithConfig.
(** [maxSize] and [ttl] (milliseconds) are fixed by the constructor;
    [clock n] is what the [n]-th reading of [Date.now()] returns. *)
Variables (maxSize ttl : Z) (clock : nat -> Z).

Definition Date_now : M Z :=
  fun s => (clock (reads s),
            mkCache (cache s) (stats s) (cleanupInterval s) (S (reads s))).

Definition updateStats (startTime : Z) : M unit :=
  now <- Date_now ;;
  upd_stats (fun st =>
    let responseTime := now - startTime in
    let n := totalRequests st + 1 in
    let total := totalResponseTime st + responseTime in
    mkStats (hits st) (misses st) (size st) n
            (Qmake total (Z.to_pos n)) total).

Definition get (key : string) : M (option User) :=
  startTime <- Date_now ;;
  c <- the_cache ;;
  match Map_get key c with
  | None =>
      upd_stats (add_misses 1) ;;
      updateStats startTime ;;
      ret None
  | Some item =>
      now <- Date_now ;;
      if ttl <? now - timestamp item then
        cache_delete key ;;
        upd_stats (add_size (-1)) ;;
        upd_stats (add_misses 1) ;;
        updateStats startTime ;;
        ret None
      else
        now' <- Date_now ;;
        (* the item is the object held by the map: the assignment to
           [accessTime] is seen through the map before the entry moves *)
        let item' := mkItem (data item) (timestamp item) now' in
        cache_set key item' ;;
        cache_delete key ;;
        cache_set key item' ;;
        upd_stats (add_hits 1) ;;
        updateStats startTime ;;
        ret (Some (data item'))
  end.

Definition set (key : string) (d : User) : M unit :=
  now <- Date_now ;;
  c <- the_cache ;;
  (if Map_has key c then
     cache_delete key ;; ret tt
   else if maxSize <=? Map_size c then
     let firstKey := Map_first_key c in
     if truthy firstKey then
       match firstKey with
       | Some k => cache_delete k ;; upd_stats (add_size (-1))
       | None => ret tt
       end
     else ret tt
   else ret tt) ;;
  cache_set key (mkItem d now now) ;;
  c' <- the_cache ;;
  if negb (Map_has key c') || (Map_size c' <? maxSize)
  then upd_stats (add_size 1)
  else ret tt.

Definition delete (key : string) : M bool :=
  deleted <- cache_delete key ;;
  (if deleted then upd_stats (add_size (-1)) else ret tt) ;;
  ret deleted.

Definition clear : M unit :=
  cache_clear ;;
  upd_stats (set_size 0).

Definition destroy : M unit :=
  clear ;;
  fun s => (tt, mkCache (cache s) (stats s) false (reads s)).

Definition getStats : M CacheStats := fun s => (stats s, s).

Definition cleanupExpiredEntries : M unit :=
  now <- Date_now ;;
  c <- the_cache ;;
  let expiredKeys :=
    Map_keys (filter (fun e => ttl < now - timestamp e.2) c) in
  forEach expiredKeys (fun key =>
    cache_delete key ;;
    upd_stats (add_size (-1))).

(** The operations a client, or the timer, can perform on the cache. *)
Inductive Op :=
| OpGet (key : string)
| OpSet (key : string) (d : User)
| OpDelete (key : string)
| OpClear
| OpDestroy
| OpGetStats
| OpCleanup.

Definition run_op (o : Op) (s : LRUCache) : LRUCache :=
  match o with
  | OpGet key => (get key s).2
  | OpSet key d => (set key d s).2
  | OpDelete key => (delete key s).2
  | OpClear => (clear s).2
  | OpDestroy => (destroy s).2
  | OpGetStats => (getStats s).2
  | OpCleanup => (cleanupExpiredEntries s).2
  end.

Definition run_ops (os : list Op) (s : LRUCache) : LRUCache :=
  foldl (fun s o => run_op o s) s os.
End WithConfig.

(** A freshly constructed cache (the timer is armed outside the test
    environment). *)
Definition new : LRUCache := mkCache [] stats0 true 0%nat.

(** A clock that advances by one millisecond at every reading. *)
Definition ticking (n : nat) : Z := Z.of_nat n.


End Cache.

(** ** services/rateLimiter.ts *)
Module RateLimiter.

Record RateLimitEntry := mkEntry { requests : list Z; burstRequests : list Z }.

(** A JavaScript number as the limiter produces it: an integer, or the
    [Infinity] that [Math.min()] returns when it is given no argument. *)
Inductive JSNumber :=
| Num (z : Z)
| Infinity.

Definition Math_min (l : list Z) : JSNumber :=
  foldr (fun t acc =>
           match acc with
           | Infinity => Num t
           | Num m => Num (Z.min t m)
           end) Infinity l.

Definition plus (n : JSNumber) (w : Z) : JSNumber :=
  match n with
  | Num z => Num (z + w)
  | Infinity => Infinity
  end.

Record Result := mkResult {
  allowed : bool;
  remaining : Z;
  resetTime : JSNumber
}.

Record Stats := mkStats {
  totalClients : Z;
  st_maxRequests : Z;
  st_windowMs : Z;
  st_maxBurstRequests : Z;
  st_burstWindowMs : Z
}.

Section WithConfig.
Variables (maxRequests windowMs maxBurstRequests burstWindowMs : Z).

(** [l.filter(time => now - time < w)] *)
Definition prune (now w : Z) (l : list Z) : list Z :=
  filter (fun time => now - time < w) l.

Definition checkLimit (clientId : string) (now : Z)
    (clients : gmap string RateLimitEntry)
  : Result * gmap string RateLimitEntry :=
  let clients :=
    match clients !! clientId with
    | Some _ => clients
    | None => <[clientId := mkEntry [] []]> clients
    end in
  let client := default (mkEntry [] []) (clients !! clientId) in
  let client :=
    mkEntry (prune now windowMs (requests client)) (burstRequests client) in
  let client :=
    mkEntry (requests client) (prune now burstWindowMs (burstRequests client)) in
  let clients := <[clientId := client]> clients in
  if maxBurstRequests <=? Z.of_nat (length (burstRequests client)) then
    let oldestBurstRequest := Math_min (burstRequests client) in
    let burstResetTime := plus oldestBurstRequest burstWindowMs in
    (mkResult false 0 burstResetTime, clients)
  else if maxRequests <=? Z.of_nat (length (requests client)) then
    let oldestRequest := Math_min (requests client) in
    (mkResult false 0 (plus oldestRequest windowMs), clients)
  else
    let client := mkEntry (requests client ++ [now]) (burstRequests client) in
    let client := mkEntry (requests client) (burstRequests client ++ [now]) in
    let clients := <[clientId := client]> clients in
    let remaining :=
      Z.min (maxRequests - Z.of_nat (length (requests client)))
            (maxBurstRequests - Z.of_nat (length (burstRequests client))) in
    (mkResult true remaining (Num (now + windowMs)), clients).

Definition cleanup (now : Z) (clients : gmap string RateLimitEntry)
  : gmap string RateLimitEntry :=
  let pruned :=
    (fun client => mkEntry (prune now windowMs (requests client))
                           (prune now burstWindowMs (burstRequests client)))
      <$> clients in
  filter (fun kv => ¬ (requests kv.2 = [] ∧ burstRequests kv.2 = [])) pruned.

Definition getStats (clients : gmap string RateLimitEntry) : Stats :=
  mkStats (Z.of_nat (size clients))
          maxRequests windowMs maxBurstRequests burstWindowMs.
End WithConfig.

(** The words of the specification: a timestamp is the oldest survivor of
    a sequence when it occurs in it and none is earlier. *)
Definition oldest (m : Z) (l : list Z) : Prop :=
  m ∈ l ∧ ∀ t, t ∈ l → m <= t.

(** One client checked at each of the given times, in turn. *)
Fixpoint checkLimit_at (maxRequests windowMs maxBurstRequests burstWindowMs : Z)
    (clientId : string) (times : list Z) (clients : gmap string RateLimitEntry)
  : list Result * gmap string RateLimitEntry :=
  match times with
  | [] => ([], clients)
  | now :: times' =>
      let (r, clients) :=
        checkLimit maxRequests windowMs maxBurstRequests burstWindowMs
                   clientId now clients in
      let (rs, clients) :=
        checkLimit_at maxRequests windowMs maxBurstRequests burstWindowMs
                      clientId times' clients in
      (r :: rs, clients)
  end.

End RateLimiter.

(** ** services/queueService.ts *)
Module Queue.

Record Error := mkError { message : string }.

(** What a failed call of the database carries: an [Error] object, or
    some other thrown value. *)
Inductive Thrown :=
| ThrownError (e : Error)
| ThrownOther.

(** How [userDb.getUserById] ends. *)
Inductive UpstreamResult :=
| Returns (user : option User)
| Throws (t : Thrown).

Inductive Outcome :=
| Fulfilled (value : option User)
| Rejected (reason : Error).

(** A caller suspended on [await queueService.addUserFetchJob(key)]. The
    method is [async]: what the caller awaits is a promise that follows the
    one the method returns, so the caller is a waiter of the latter. *)
Record Waiter := mkWaiter { caller : nat; key : Z }.

(** A promise of the runtime: pending ([None]) with the reactions
    registered on it, or settled. *)
Record Promise := mkPromise { state : option Outcome; reactions : list Waiter }.

(** [resolve] and [reject] are the two capabilities of one promise, which
    [promise] names by its index in the store. The [id] string is formatted
    from the two numbers kept here. *)
Record QueueJob := mkJob {
  id : Z * Z;
  userId : Z;
  timestamp : Z;
  promise : nat
}.

Record Stats := mkStats { processed : Z; failed : Z; pending : Z }.

(** An activation of [processQueue] suspended at one of its two [await]s. *)
Inductive Activation :=
| AwaitUpstream (job : QueueJob)
| AwaitDelay (ms : Z).

(** What a waiter sees when its continuation runs: the outcome, and the
    entry that the in-flight map holds for its key at that moment. *)
Record Observation := mkObs {
  who : Waiter;
  outcome : Outcome;
  registered : option nat
}.

(** The four fields of the object, then the runtime around it: the promise
    store, the suspended activations of [processQueue], the calls issued to
    the database, the microtask queue, and the log of what waiters saw. *)
Record QueueService := mkQueue {
  queue : list QueueJob;
  processing : bool;
  pendingRequests : gmap Z nat;
  stats : Stats;
  promises : list Promise;
  loops : list Activation;
  upstream : list Z;
  microtasks : list (Waiter * Outcome);
  observed : list Observation
}.

Definition new : QueueService :=
  mkQueue [] false ∅ (mkStats 0 0 0) [] [] [] [] [].

Definition set_queue q s :=
  mkQueue q (processing s) (pendingRequests s) (stats s) (promises s)
          (loops s) (upstream s) (microtasks s) (observed s).
Definition set_processing b s :=
  mkQueue (queue s) b (pendingRequests s) (stats s) (promises s)
          (loops s) (upstream s) (microtasks s) (observed s).
Definition set_pendingRequests m s :=
  mkQueue (queue s) (processing s) m (stats s) (promises s)
          (loops s) (upstream s) (microtasks s) (observed s).
Definition set_stats st s :=
  mkQueue (queue s) (processing s) (pendingRequests s) st (promises s)
          (loops s) (upstream s) (microtasks s) (observed s).
Definition set_promises ps s :=
  mkQueue (queue s) (processing s) (pendingRequests s) (stats s) ps
          (loops s) (upstream s) (microtasks s) (observed s).
Definition set_loops l s :=
  mkQueue (queue s) (processing s) (pendingRequests s) (stats s) (promises s)
          l (upstream s) (microtasks s) (observed s).
Definition set_upstream u s :=
  mkQueue (queue s) (processing s) (pendingRequests s) (stats s) (promises s)
          (loops s) u (microtasks s) (observed s).
Definition set_microtasks mt s :=
  mkQueue (queue s) (processing s) (pendingRequests s) (stats s) (promises s)
          (loops s) (upstream s) mt (observed s).
Definition set_observed o s :=
  mkQueue (queue s) (processing s) (pendingRequests s) (stats s) (promises s)
          (loops s) (upstream s) (microtasks s) o.

Definition add_processed d s :=
  set_stats (mkStats (processed (stats s) + d) (failed (stats s)) (pending (stats s))) s.
Definition add_failed d s :=
  set_stats (mkStats (processed (stats s)) (failed (stats s) + d) (pending (stats s))) s.
Definition add_pending d s :=
  set_stats (mkStats (processed (stats s)) (failed (stats s)) (pending (stats s) + d)) s.

(** *** Promises *)

(** [new Promise(...)]: a fresh pending promise at the end of the store. *)
Definition new_promise (s : QueueService) : nat * QueueService :=
  (length (promises s), set_promises (promises s ++ [mkPromise None []]) s).

(** [job.resolve(v)] or [job.reject(e)]: a pending promise takes the
    outcome and its reactions are queued as microtasks; on a settled promise
    the call does nothing. *)
Definition settle (p : nat) (o : Outcome) (s : QueueService) : QueueService :=
  match promises s !! p with
  | Some (mkPromise None rs) =>
      set_microtasks (microtasks s ++ map (fun w => (w, o)) rs)
        (set_promises (<[p := mkPromise (Some o) []]> (promises s)) s)
  | _ => s
  end.

(** [await p] by a caller: a reaction on a pending promise, a microtask at
    once on a settled one. *)
Definition await (w : Waiter) (p : nat) (s : QueueService) : QueueService :=
  match promises s !! p with
  | Some (mkPromise None rs) =>
      set_promises (<[p := mkPromise None (rs ++ [w])]> (promises s)) s
  | Some (mkPromise (Some o) _) =>
      set_microtasks (microtasks s ++ [(w, o)]) s
  | None => s
  end.

(** The microtask queue is drained when the synchronous code has run to its
    end: each waiter then observes its outcome. *)
Definition run_microtasks (s : QueueService) : QueueService :=
  set_microtasks []
    (set_observed
       (observed s ++
        map (fun wo => mkObs wo.1 wo.2 (pendingRequests s !! key wo.1))
            (microtasks s)) s).

(** *** The methods *)

(** The head of the [while] loop of [processQueue], up to its first
    [await]: the loop ends on an empty queue, otherwise the first job is
    taken and the database is called. *)
Definition while_head (s : QueueService) : QueueService :=
  match queue s with
  | [] => set_processing false s
  | job :: rest =>
      let s := set_queue rest s in
      let s := add_pending (-1) s in
      let s := set_upstream (upstream s ++ [userId job]) s in
      set_loops (loops s ++ [AwaitUpstream job]) s
  end.

Definition processQueue (s : QueueService) : QueueService :=
  if processing s || (length (queue s) =? 0)%nat then s
  else while_head (set_processing true s).

Definition addUserFetchJob (userId : Z) (t_id t_ts : Z) (s : QueueService)
  : nat * QueueService :=
  match pendingRequests s !! userId with
  | Some p => (p, s)
  | None =>
      let (p, s) := new_promise s in
      let job := mkJob (userId, t_id) userId t_ts p in
      let s := set_queue (queue s ++ [job]) s in
      let s := add_pending 1 s in
      let s := if negb (processing s) then processQueue s else s in
      let s := set_pendingRequests (<[userId := p]> (pendingRequests s)) s in
      (p, s)
  end.

Definition to_Error (t : Thrown) : Error :=
  match t with
  | ThrownError e => e
  | ThrownOther => mkError "Unknown error"
  end.

(** The body of the loop after [await userDb.getUserById(job.userId)], up
    to the [await] of the timer. *)
Definition after_upstream (job : QueueJob) (r : UpstreamResult)
    (s : QueueService) : QueueService :=
  match r with
  | Returns user =>
      let s := settle (promise job) (Fulfilled user) s in
      let s := add_processed 1 s in
      set_pendingRequests (base.delete (userId job) (pendingRequests s)) s
  | Throws error =>
      let s := settle (promise job) (Rejected (to_Error error)) s in
      let s := add_failed 1 s in
      set_pendingRequests (base.delete (userId job) (pendingRequests s)) s
  end.

Definition shutdown_error : Error := mkError "Queue service is shutting down".

(** [jobs.forEach(job => job.reject(...))] *)
Definition reject_all (jobs : list QueueJob) (s : QueueService) : QueueService :=
  foldl (fun s job => settle (promise job) (Rejected shutdown_error) s) s jobs.

Definition close (s : QueueService) : QueueService :=
  let s := reject_all (queue s) s in
  let s := set_queue [] s in
  set_pendingRequests ∅ s.

Record QueueStatus := mkStatus {
  waiting : Z;
  qs_processing : bool;
  qs_pendingRequests : Z;
  qs_stats : Stats
}.

Definition getQueueStatus (s : QueueService) : QueueStatus :=
  mkStatus (Z.of_nat (length (queue s))) (processing s)
           (Z.of_nat (size (pendingRequests s))) (stats s).

(** *** The event loop

    One event is one synchronous stretch of code followed by the draining
    of the microtask queue. *)
Inductive Event :=
| EvCall (c : nat) (userId : Z) (t_id t_ts : Z)
| EvUpstream (i : nat) (r : UpstreamResult)
| EvTimer (i : nat)
| EvClose.

Definition segment (ev : Event) (s : QueueService) : option QueueService :=
  match ev with
  | EvCall c k t_id t_ts =>
      let (p, s) := addUserFetchJob k t_id t_ts s in
      Some (await (mkWaiter c k) p s)
  | EvUpstream i r =>
      match loops s !! i with
      | Some (AwaitUpstream job) =>
          let s := after_upstream job r s in
          Some (set_loops (<[i := AwaitDelay 10]> (loops s)) s)
      | _ => None
      end
  | EvTimer i =>
      match loops s !! i with
      | Some (AwaitDelay _) =>
          Some (while_head (set_loops (base.delete i (loops s)) s))
      | _ => None
      end
  | EvClose => Some (close s)
  end.

Definition step (ev : Event) (s : QueueService) : option QueueService :=
  run_microtasks <$> segment ev s.

Fixpoint run (evs : list Event) (s : QueueService) : option QueueService :=
  match evs with
  | [] => Some s
  | ev :: evs' =>
      match step ev s with
      | Some s' => run evs' s'
      | None => None
      end
  end.

Inductive reachable : QueueService -> Prop :=
| reachable_new : reachable new
| reachable_step s ev s' :
    reachable s -> step ev s = Some s' -> reachable s'.

(** The jobs whose upstream call was started and has not returned. *)
Definition in_flight (s : QueueService) : list QueueJob :=
  omap (fun a => match a with AwaitUpstream j => Some j | AwaitDelay _ => None end)
       (loops s).

(** The jobs not yet finished: queued, or in flight. *)
Definition live (s : QueueService) : list QueueJob := queue s ++ in_flight s.


(** How many jobs for [k] were handed to the database or still wait for it. *)
Definition fetches (k : Z) (s : QueueService) : nat :=
  length (filter (fun u => u = k) (upstream s))
  + length (filter (fun j => userId j = k) (queue s)).

(** The outcome that the loop gives to the promise of a job. *)
Definition outcome_of (r : UpstreamResult) : Outcome :=
  match r with
  | Returns user => Fulfilled user
  | Throws error => Rejected (to_Error error)
  end.

(** The counters after the loop has handled the return of the database. *)
Definition stats_after (r : UpstreamResult) (st : Stats) : Stats :=
  match r with
  | Returns _ => mkStats (processed st + 1) (failed st) (pending st)
  | Throws _ => mkStats (processed st) (failed st + 1) (pending st)
  end.

(** A run used as an example: callers 0 and 1 ask for user 1, caller 2 for
    user 2, all before the database answers. *)
Definition three_calls : list Event :=
  [EvCall 0 1 1000 1000; EvCall 1 1 1001 1001; EvCall 2 2 1002 1002].

Definition after (evs : list Event) : QueueService := default new (run evs new).

(** What holds of the service between two events. *)
Record Inv (s : QueueService) : Prop := mkInv {
  inv_loops :
    (processing s = false ∧ loops s = [] ∧ queue s = []) ∨
    (processing s = true ∧ ∃ a, loops s = [a]);
  inv_micro : microtasks s = [];
  inv_nodup : NoDup (promise <$> live s);
  inv_live : ∀ j, j ∈ live s ->
    ∃ rs, promises s !! promise j = Some (mkPromise None rs) ∧
          ∀ w, w ∈ rs -> key w = userId j;
  inv_map : ∀ k p, pendingRequests s !! k = Some p ->
    ∃ j, j ∈ live s ∧ promise j = p ∧ userId j = k;
  inv_obs : ∀ o, o ∈ observed s -> registered o = None;
  inv_pending :
    pending (stats s)
    = Z.of_nat (length (promises s)) - Z.of_nat (length (upstream s))
}.

End Queue.

(** ** database/userDatabase.ts *)
Module Database.

(** [users] is the [Record<number, User>] of the singleton, [nextId] the
    next identifier to hand out. *)
Record UserDatabase := mkDb { users : gmap Z User; nextId : Z }.

Definition mockUsers : gmap Z User :=
  <[1 := john]> (<[2 := jane]> (<[3 := alice]> ∅)).

Definition new : UserDatabase := mkDb mockUsers 4.

(** What [getUserById] returns once its delay has elapsed:
    [this.users[id] || null]. *)
Definition getUserById (key : Z) (db : UserDatabase) : option User :=
  match users db !! key with
  | Some user => Some user
  | None => None
  end.

(** What [createUser] does once its delay has elapsed: the new user takes
    [nextId], which is then incremented, and is stored under its id. *)
Definition createUser (userName userEmail : string) (db : UserDatabase)
  : User * UserDatabase :=
  let newUser := mkUser (nextId db) userName userEmail in
  let db := mkDb (users db) (nextId db + 1) in
  (newUser, mkDb (<[id newUser := newUser]> (users db)) (nextId db)).

(** Users created one after the other. *)
Fixpoint createUsers (rows : list (string * string)) (db : UserDatabase)
  : list User * UserDatabase :=
  match rows with
  | [] => ([], db)
  | row :: rows' =>
      let (u, db) := createUser row.1 row.2 db in
      let (us, db) := createUsers rows' db in
      (u :: us, db)
  end.

(** Every user is stored under its own id, below [nextId]. *)
Definition wf (db : UserDatabase) : Prop :=
  ∀ k u, users db !! k = Some u -> id u = k ∧ k < nextId db.

End Database.

(** ** Runs of the environment *)
Module Runs.

(** The rate limiter checked for one client and one time after the other. *)
Definition checks (maxRequests windowMs maxBurstRequests burstWindowMs : Z)
    (cs : list (string * Z)) (clients : gmap string RateLimiter.RateLimitEntry)
  : gmap string RateLimiter.RateLimitEntry :=
  foldl (fun m c =>
           (RateLimiter.checkLimit maxRequests windowMs maxBurstRequests
              burstWindowMs c.1 c.2 m).2) clients cs.

(** The database answers the call in flight, the timer fires, and so on,
    once per given answer. *)
Definition drain (rs : list Queue.UpstreamResult) : list Queue.Event :=
  flat_map (fun r => [Queue.EvUpstream 0 r; Queue.EvTimer 0]) rs.

End Runs.

(** * Properties *)

(** ** The insertion-ordered map *)
Section JSMapFacts.
Context {V : Type}.
Implicit Types (m : list (string * V)) (k : string) (v : V).

Lemma Map_get_None k m : Map_get k m = None <-> k ∉ Map_keys m.
Proof.
  unfold Map_keys. induction m as [|[k' v'] m IH]; simpl.
  - split; [intros _; apply not_elem_of_nil | done].
  - destruct (String.eqb_spec k k') as [->|Hne].
    + split; [done | intros H; exfalso; apply H; left].
    + rewrite IH. rewrite not_elem_of_cons. tauto.
Qed.

Lemma Map_has_false k m : Map_has k m = false <-> k ∉ Map_keys m.
Proof.
  rewrite <- Map_get_None. unfold Map_has.
  destruct (Map_get k m); split; congruence.
Qed.

Lemma Map_set_fresh k v m : Map_get k m = None -> Map_set k v m = m ++ [(k, v)].
Proof.
  induction m as [|[k' v'] m IH]; simpl; [done|].
  destruct (String.eqb k k'); [done|]. intros H. by rewrite IH.
Qed.

Lemma Map_delete_set k v m : Map_delete k (Map_set k v m) = Map_delete k m.
Proof.
  induction m as [|[k' v'] m IH]; simpl.
  - by rewrite String.eqb_refl.
  - destruct (String.eqb k k') eqn:E; simpl.
    + by rewrite String.eqb_refl.
    + by rewrite E, IH.
Qed.

Lemma Map_keys_delete_subseteq k m : Map_keys (Map_delete k m) ⊆ Map_keys m.
Proof.
  unfold Map_keys. induction m as [|[k' v'] m IH]; simpl; [done|].
  destruct (String.eqb k k'); simpl.
  - intros x Hx. by right.
  - intros x. rewrite !elem_of_cons. intros [->|H]; [by left | right; by apply IH].
Qed.

Lemma Map_delete_NoDup k m : NoDup (Map_keys m) -> NoDup (Map_keys (Map_delete k m)).
Proof.
  unfold Map_keys. induction m as [|[k' v'] m IH]; simpl; [done|].
  rewrite NoDup_cons. intros [Hk Hm].
  destruct (String.eqb k k'); simpl; [done|].
  apply NoDup_cons. split; [|by apply IH].
  intros H. apply Hk. by apply (Map_keys_delete_subseteq k m).
Qed.

Lemma Map_get_delete k m : NoDup (Map_keys m) -> Map_get k (Map_delete k m) = None.
Proof.
  unfold Map_keys. induction m as [|[k' v'] m IH]; simpl; [done|].
  rewrite NoDup_cons. intros [Hk Hm].
  destruct (String.eqb_spec k k') as [->|Hne]; simpl.
  - by apply Map_get_None.
  - destruct (String.eqb_spec k k'); [done|]. by apply IH.
Qed.

Lemma Map_delete_length k m :
  length (Map_delete k m) = (length m - (if Map_has k m then 1 else 0))%nat.
Proof.
  unfold Map_has. induction m as [|[k' v'] m IH]; simpl; [done|].
  destruct (String.eqb k k'); simpl; [lia|].
  rewrite IH. destruct (Map_get k m) eqn:E; [|lia].
  destruct m; [done|]. simpl. lia.
Qed.
End JSMapFacts.

(** ** The cache *)
Module CacheSpec.
Import Cache.

Ltac run_cache :=
  cbv [get set delete clear destroy getStats cleanupExpiredEntries updateStats
       Date_now the_cache cache_delete cache_set cache_clear upd_stats
       bind ret with_cache with_stats add_hits add_misses add_size set_size];
  cbn [cache stats reads cleanupInterval fst snd
       hits misses size totalRequests totalResponseTime averageResponseTime].

(** C4. [get] on an absent key, or on an entry older than the time-to-live,
    answers [null], counts a miss and (for the expired entry) removes it;
    on a live entry it answers the stored value, refreshes [accessTime],
    moves the entry to the end of the map and counts a hit. A reading
    strictly before [timestamp + ttl] is a hit and one strictly after is a
    miss. *)
Theorem get_semantics (ttl : Z) (clock : nat -> Z) (key : string) (s : LRUCache) :
  NoDup (Map_keys (cache s)) ->
  let r := get ttl clock key s in
  match Map_get key (cache s) with
  | None =>
      r.1 = None ∧ cache r.2 = cache s ∧
      misses (stats r.2) = misses (stats s) + 1 ∧
      hits (stats r.2) = hits (stats s)
  | Some item =>
      let now := clock (S (reads s)) in
      let item' := mkItem (data item) (timestamp item) (clock (S (S (reads s)))) in
      (now - timestamp item > ttl ->
         r.1 = None ∧
         cache r.2 = Map_delete key (cache s) ∧
         Map_get key (cache r.2) = None ∧
         misses (stats r.2) = misses (stats s) + 1 ∧
         hits (stats r.2) = hits (stats s)) ∧
      (now - timestamp item <= ttl ->
         r.1 = Some (data item) ∧
         cache r.2 = Map_delete key (cache s) ++ [(key, item')] ∧
         last (cache r.2) = Some (key, item') ∧
         hits (stats r.2) = hits (stats s) + 1 ∧
         misses (stats r.2) = misses (stats s)) ∧
      (now < timestamp item + ttl -> r.1 = Some (data item)) ∧
      (now > timestamp item + ttl -> r.1 = None)
  end.
Proof.
  intros Hnd r. subst r. run_cache.
  destruct (Map_get key (cache s)) as [item|] eqn:Hget; [|done].
  cbn [reads].
  destruct (Z.ltb_spec ttl (clock (S (reads s)) - timestamp item)) as [Hexp|Hlive];
    cbn [fst snd cache stats hits misses reads data].
  - repeat split; try lia; intros; try lia; auto using Map_get_delete.
  - rewrite Map_delete_set.
    rewrite (Map_set_fresh key _ (Map_delete key (cache s)))
      by (by apply Map_get_delete).
    repeat split; try lia; intros; try lia; auto using last_snoc.
Qed.

(** [set] on a key that is present: the entry is rewritten and moved to the
    end, nothing else leaves the map. *)
Lemma set_present (maxSize : Z) (clock : nat -> Z) key d (s : LRUCache) :
  NoDup (Map_keys (cache s)) ->
  Map_has key (cache s) = true ->
  let now := clock (reads s) in
  cache (set maxSize clock key d s).2
  = Map_delete key (cache s) ++ [(key, mkItem d now now)].
Proof.
  intros Hnd Hhas. run_cache. rewrite Hhas. cbn [fst snd cache].
  rewrite Map_set_fresh by (by apply Map_get_delete).
  by destruct (_ || _).
Qed.

(** [set] on a new key with room left appends. *)
Lemma set_room (maxSize : Z) (clock : nat -> Z) key d (s : LRUCache) :
  Map_has key (cache s) = false ->
  Map_size (cache s) < maxSize ->
  let now := clock (reads s) in
  cache (set maxSize clock key d s).2 = cache s ++ [(key, mkItem d now now)].
Proof.
  intros Hhas Hsz. run_cache. rewrite Hhas.
  destruct (Z.leb_spec maxSize (Map_size (cache s))); [lia|].
  cbn [fst snd cache].
  rewrite Map_set_fresh.
  - by destruct (_ || _).
  - unfold Map_has in Hhas. by destruct (Map_get key (cache s)).
Qed.

(** [set] on a new key at capacity evicts the first entry of the map, the
    least recently touched one, as long as its key is not the empty
    string. *)
Lemma set_evicts_first (maxSize : Z) (clock : nat -> Z) key d (s : LRUCache)
    k0 v0 rest :
  cache s = (k0, v0) :: rest ->
  Map_has key (cache s) = false ->
  maxSize <= Map_size (cache s) ->
  k0 ≠ "" ->
  let now := clock (reads s) in
  cache (set maxSize clock key d s).2 = rest ++ [(key, mkItem d now now)].
Proof.
  intros Hc Hhas Hsz Hk0. run_cache. rewrite Hhas.
  destruct (Z.leb_spec maxSize (Map_size (cache s))); [|lia].
  rewrite Hc. cbn [Map_first_key truthy].
  destruct (String.eqb_spec k0 "") as [|_]; [done|].
  cbn [negb fst snd cache Map_delete]. rewrite String.eqb_refl.
  assert (Map_get key rest = None) as Hrest.
  { rewrite Hc in Hhas. unfold Map_has in Hhas. cbn in Hhas.
    destruct (String.eqb key k0); [done|]. by destruct (Map_get key rest). }
  rewrite Map_set_fresh by done.
  by destruct (_ || _).
Qed.


Lemma forEach_evict_stats (keys : list string) (s : LRUCache) :
  let s' := (forEach keys (fun key =>
               bind (cache_delete key) (fun _ => upd_stats (add_size (-1)))) s).2 in
  hits (stats s') = hits (stats s) ∧ misses (stats s') = misses (stats s) ∧
  totalRequests (stats s') = totalRequests (stats s) ∧
  totalResponseTime (stats s') = totalResponseTime (stats s).
Proof.
  revert s. induction keys as [|k keys IH]; intros s; [done|].
  cbn [forEach]. unfold bind at 1. unfold bind at 1.
  cbv [cache_delete upd_stats with_cache with_stats add_size].
  cbn [cache stats reads cleanupInterval].
  match goal with |- context [forEach keys ?f ?s0] => specialize (IH s0) end.
  cbn [stats hits misses totalRequests totalResponseTime] in IH. exact IH.
Qed.

Lemma cleanupExpiredEntries_eq (ttl : Z) (clock : nat -> Z) (s : LRUCache) :
  cleanupExpiredEntries ttl clock s
  = forEach
      (Map_keys (filter (fun e => ttl < clock (reads s) - timestamp e.2) (cache s)))
      (fun key => bind (cache_delete key) (fun _ => upd_stats (add_size (-1))))
      (mkCache (cache s) (stats s) (cleanupInterval s) (S (reads s))).
Proof. reflexivity. Qed.


Lemma get_semantics_witness :
  let s := run_ops 100 60000 ticking [OpSet "user:1" john] new in
  NoDup (Map_keys (cache s)) ∧
  (get 60000 ticking "user:1" s).1 = Some john ∧
  (get 60000 ticking "user:2" s).1 = None.
Proof.
  cbv zeta.
  assert (NoDup (Map_keys (cache (run_ops 100 60000 ticking
                                    [OpSet "user:1" john] new)))) as Hnd.
  { vm_compute. apply NoDup_singleton. }
  split; [exact Hnd|]. split.
  - pose proof (get_semantics 60000 ticking "user:1" _ Hnd) as H.
    cbn in H. destruct H as (_ & Hlive & _). apply Hlive. vm_compute. discriminate.
  - pose proof (get_semantics 60000 ticking "user:2" _ Hnd) as H.
    cbn in H. apply H.
Defined.

(** The example of the specification: capacity 2, A and B inserted, A read,
    C inserted: B is gone, A and C remain. *)
Example lru_touch :
  Map_keys (cache (run_ops 2 60000 ticking
                     [OpSet "A" john; OpSet "B" jane; OpGet "A"; OpSet "C" alice]
                     new))
  = ["A"; "C"].
Proof. reflexivity. Qed.

(** C5, at an input where the code departs from it: the truthiness test on
    the first key skips the eviction when that key is the empty string, so
    a third key enters a full cache of capacity 2 and nothing leaves. *)
Theorem set_keeps_empty_first_key :
  let s := run_ops 2 60000 ticking [OpSet "" john; OpSet "b" jane] new in
  Map_size (cache s) = 2 ∧
  Map_has "c" (cache s) = false ∧
  Map_first_key (cache s) = Some "" ∧
  Map_keys (cache (set 2 ticking "c" alice s).2) = [""; "b"; "c"].
Proof. cbv zeta. repeat split; reflexivity. Qed.

(** C2, at inputs where the code departs from it: the [size] of the
    statistics is a counter of its own. Writing a key that is present
    counts it again (two writes of one key report 2), and a write that
    fills the map to capacity is not counted, so that with capacity 2 four
    distinct keys leave two entries and a reported size of -1. *)
Theorem size_counter_drifts :
  let twice := run_ops 100 60000 ticking
                 [OpSet "user:1" john; OpSet "user:1" john] new in
  let four := run_ops 2 60000 ticking
                [OpSet "user:1" john; OpSet "user:2" jane;
                 OpSet "user:3" alice; OpSet "user:4" john] new in
  (size (getStats twice).1 = 2 ∧ Map_keys (cache twice) = ["user:1"]) ∧
  (size (getStats four).1 = -1 ∧ Map_keys (cache four) = ["user:3"; "user:4"]).
Proof. cbv zeta. repeat split; reflexivity. Qed.
End CacheSpec.

(** ** The rate limiter *)
Module RateLimiterSpec.
Import RateLimiter.

Lemma Math_min_oldest (l : list Z) :
  l ≠ [] -> ∃ m, Math_min l = Num m ∧ oldest m l.
Proof.
  induction l as [|t l IH]; [done|]. intros _.
  destruct l as [|t' l].
  - exists t. split; [done|]. split; [by left|].
    intros x Hx. apply list_elem_of_singleton in Hx. lia.
  - destruct IH as (m & Hm & Hin & Hle); [done|].
    cbn [Math_min foldr] in *. rewrite Hm.
    exists (Z.min t m). split; [done|]. split.
    + destruct (Z.min_spec t m) as [[_ ->]|[_ ->]]; [by left | by right].
    + intros x Hx. apply elem_of_cons in Hx as [->|Hx]; [lia|].
      specialize (Hle x Hx). lia.
Qed.

Lemma oldest_unique (m m' : Z) (l : list Z) : oldest m l -> oldest m' l -> m = m'.
Proof.
  intros [Hin Hle] [Hin' Hle']. specialize (Hle _ Hin'). specialize (Hle' _ Hin). lia.
Qed.

Lemma reset_of_oldest (l : list Z) (w m : Z) :
  oldest m l -> plus (Math_min l) w = Num (m + w).
Proof.
  intros Hm. destruct (Math_min_oldest l) as (m' & -> & Hm').
  - intros ->. destruct Hm as [Hin _]. by apply elem_of_nil in Hin.
  - cbn. by rewrite (oldest_unique _ _ _ Hm Hm').
Qed.

(** C3. [checkLimit] prunes both sequences of the client to their windows.
    With the pruned burst count at the burst budget it denies, and the
    reset time is the oldest surviving burst timestamp plus the burst
    window; otherwise, with the pruned sustained count at the sustained
    budget it denies, with the oldest surviving sustained timestamp plus
    the sustained window; otherwise it admits, appends [now] to both
    sequences, reports the smaller of the two budgets left after the
    append, and a reset time of [now] plus the sustained window. Other
    clients are untouched. *)
Theorem checkLimit_dual_window (Ns Ws Nb Wb : Z) (clientId : string) (now : Z)
    (clients : gmap string RateLimitEntry) :
  let entry := default (mkEntry [] []) (clients !! clientId) in
  let sustained := filter (fun t => now - t < Ws) (requests entry) in
  let burst := filter (fun t => now - t < Wb) (burstRequests entry) in
  let res := (checkLimit Ns Ws Nb Wb clientId now clients).1 in
  let clients' := (checkLimit Ns Ws Nb Wb clientId now clients).2 in
  (∀ c, c ≠ clientId -> clients' !! c = clients !! c) ∧
  (Nb <= Z.of_nat (length burst) ->
     allowed res = false ∧
     (∀ m, oldest m burst -> resetTime res = Num (m + Wb)) ∧
     (burst ≠ [] -> ∃ m, oldest m burst) ∧
     clients' !! clientId = Some (mkEntry sustained burst)) ∧
  (Z.of_nat (length burst) < Nb -> Ns <= Z.of_nat (length sustained) ->
     allowed res = false ∧
     (∀ m, oldest m sustained -> resetTime res = Num (m + Ws)) ∧
     (sustained ≠ [] -> ∃ m, oldest m sustained) ∧
     clients' !! clientId = Some (mkEntry sustained burst)) ∧
  (Z.of_nat (length burst) < Nb -> Z.of_nat (length sustained) < Ns ->
     allowed res = true ∧
     clients' !! clientId = Some (mkEntry (sustained ++ [now]) (burst ++ [now])) ∧
     remaining res
     = Z.min (Ns - Z.of_nat (length (sustained ++ [now])))
             (Nb - Z.of_nat (length (burst ++ [now]))) ∧
     resetTime res = Num (now + Ws)).
Proof.
  intros entry sustained burst res clients'.
  assert (default (mkEntry [] [])
            (match clients !! clientId with
             | Some _ => clients
             | None => <[clientId := mkEntry [] []]> clients
             end !! clientId) = entry) as Hentry.
  { subst entry. destruct (clients !! clientId) eqn:E.
    - by rewrite E.
    - by rewrite lookup_insert_eq. }
  assert (∀ c, c ≠ clientId ->
            match clients !! clientId with
            | Some _ => clients
            | None => <[clientId := mkEntry [] []]> clients
            end !! c = clients !! c) as Hother.
  { intros c Hc. destruct (clients !! clientId); [done|].
    by rewrite lookup_insert_ne. }
  subst res clients'. unfold checkLimit. cbv zeta. rewrite Hentry.
  cbn [requests burstRequests]. unfold prune.
  fold sustained. fold burst.
  destruct (Z.leb_spec Nb (Z.of_nat (length burst))) as [Hb|Hb];
    [|destruct (Z.leb_spec Ns (Z.of_nat (length sustained))) as [Hs|Hs]];
    cbn [fst snd allowed remaining resetTime].
  - split; [intros c Hc; rewrite lookup_insert_ne by done; by apply Hother|].
    split; [intros _|split; intros; lia].
    split; [done|]. split; [intros m Hm; by apply reset_of_oldest|].
    split; [intros Hne; destruct (Math_min_oldest burst Hne) as (m & _ & Hm); eauto|].
    by rewrite lookup_insert_eq.
  - split; [intros c Hc; rewrite lookup_insert_ne by done; by apply Hother|].
    split; [intros; lia|]. split; [intros _ _|intros; lia].
    split; [done|]. split; [intros m Hm; by apply reset_of_oldest|].
    split; [intros Hne; destruct (Math_min_oldest sustained Hne) as (m & _ & Hm); eauto|].
    by rewrite lookup_insert_eq.
  - split; [intros c Hc; rewrite !lookup_insert_ne by done; by apply Hother|].
    split; [intros; lia|]. split; [intros; lia|]. intros _ _.
    split; [done|]. split; [by rewrite lookup_insert_eq|]. done.
Qed.

(** The example of the specification: budgets 5 per 10 s and 10 per 60 s;
    five requests are admitted, the sixth within the 10 s is denied with a
    reset time of the first timestamp plus 10 s, the sustained budget not
    being exhausted. *)
Example burst_denial :
  (checkLimit_at 10 60000 5 10000 "::1" [1000; 2000; 3000; 4000; 5000; 6000] ∅).1
  = [mkResult true 4 (Num 61000); mkResult true 3 (Num 62000);
     mkResult true 2 (Num 63000); mkResult true 1 (Num 64000);
     mkResult true 0 (Num 65000); mkResult false 0 (Num 11000)].
Proof. vm_compute. reflexivity. Qed.

Lemma checkLimit_dual_window_witness :
  let clients := (checkLimit_at 10 60000 5 10000 "::1"
                    [1000; 2000; 3000; 4000; 5000] ∅).2 in
  let res := (checkLimit 10 60000 5 10000 "::1" 6000 clients).1 in
  allowed res = false ∧ resetTime res = Num (1000 + 10000).
Proof.
  cbv zeta.
  pose proof (checkLimit_dual_window 10 60000 5 10000 "::1" 6000
                (checkLimit_at 10 60000 5 10000 "::1"
                   [1000; 2000; 3000; 4000; 5000] ∅).2) as H.
  cbv zeta in H. destruct H as (_ & Hburst & _).
  destruct Hburst as (Hden & Hreset & _).
  - vm_compute. discriminate.
  - split; [exact Hden|]. apply Hreset. split.
    + vm_compute. by left.
    + vm_compute. intros t Ht.
      repeat (apply elem_of_cons in Ht as [->|Ht]; [discriminate|]).
      by apply elem_of_nil in Ht.
Defined.
End RateLimiterSpec.

(** ** The queue service *)
Module QueueSpec.
Import Queue.

Ltac unfold_setters :=
  cbv [set_queue set_processing set_pendingRequests set_stats set_promises
       set_loops set_upstream set_microtasks set_observed
       add_processed add_failed add_pending];
  cbn [queue processing pendingRequests stats promises loops upstream
       microtasks observed processed failed pending].

(** *** Promises *)

Lemma settle_pending p o rs (s : QueueService) :
  promises s !! p = Some (mkPromise None rs) ->
  settle p o s
  = set_microtasks (microtasks s ++ map (fun w => (w, o)) rs)
      (set_promises (<[p := mkPromise (Some o) []]> (promises s)) s).
Proof. intros H. unfold settle. by rewrite H. Qed.

Lemma await_pending w p rs (s : QueueService) :
  promises s !! p = Some (mkPromise None rs) ->
  await w p s = set_promises (<[p := mkPromise None (rs ++ [w])]> (promises s)) s.
Proof. intros H. unfold await. by rewrite H. Qed.

(** *** What each event does, between two states that satisfy [Inv] *)

(** A call for a key that is registered only adds a waiter to its promise. *)
Lemma segment_call_registered c k t1 t2 p (s : QueueService) :
  Inv s ->
  pendingRequests s !! k = Some p ->
  ∃ rs, promises s !! p = Some (mkPromise None rs) ∧
        addUserFetchJob k t1 t2 s = (p, s) ∧
        segment (EvCall c k t1 t2) s
        = Some (set_promises
                  (<[p := mkPromise None (rs ++ [mkWaiter c k])]> (promises s)) s).
Proof.
  intros HI Hk.
  destruct (inv_map s HI k p Hk) as (j & Hj & <- & Hu).
  destruct (inv_live s HI j Hj) as (rs & Hp & _).
  exists rs. split; [done|].
  unfold segment, addUserFetchJob. rewrite Hk. split; [done|].
  by rewrite (await_pending _ _ rs).
Qed.

(** A call for a key that is not registered, the loop being busy: a fresh
    pending promise, a job at the end of the queue. *)
Lemma segment_call_busy c k t1 t2 (s : QueueService) :
  pendingRequests s !! k = None ->
  processing s = true ->
  let p := length (promises s) in
  let job := mkJob (k, t1) k t2 p in
  addUserFetchJob k t1 t2 s
  = (p, mkQueue (queue s ++ [job]) true (<[k := p]> (pendingRequests s))
          (mkStats (processed (stats s)) (failed (stats s)) (pending (stats s) + 1))
          (promises s ++ [mkPromise None []])
          (loops s) (upstream s) (microtasks s) (observed s)) ∧
  segment (EvCall c k t1 t2) s
  = Some (mkQueue (queue s ++ [job]) true (<[k := p]> (pendingRequests s))
            (mkStats (processed (stats s)) (failed (stats s)) (pending (stats s) + 1))
            (promises s ++ [mkPromise None [mkWaiter c k]])
            (loops s) (upstream s) (microtasks s) (observed s)).
Proof.
  intros Hk Hp p job.
  assert (addUserFetchJob k t1 t2 s
          = (p, mkQueue (queue s ++ [job]) true (<[k := p]> (pendingRequests s))
              (mkStats (processed (stats s)) (failed (stats s)) (pending (stats s) + 1))
              (promises s ++ [mkPromise None []])
              (loops s) (upstream s) (microtasks s) (observed s))) as Hadd.
  { unfold addUserFetchJob. rewrite Hk. unfold new_promise. unfold_setters.
    rewrite Hp. cbn [negb]. unfold_setters. done. }
  split; [exact Hadd|].
  unfold segment. rewrite Hadd. unfold await. cbn [promises].
  rewrite lookup_app_r by done. subst p. rewrite Nat.sub_diag. cbn [lookup list_lookup].
  unfold_setters. f_equal. f_equal.
  rewrite insert_app_r_alt by done. by rewrite Nat.sub_diag.
Qed.

(** A call for a key that is not registered, the loop being idle: the job
    is taken from the queue at once and the database is called. *)
Lemma segment_call_idle c k t1 t2 (s : QueueService) :
  pendingRequests s !! k = None ->
  processing s = false ->
  queue s = [] ->
  let p := length (promises s) in
  let job := mkJob (k, t1) k t2 p in
  addUserFetchJob k t1 t2 s
  = (p, mkQueue [] true (<[k := p]> (pendingRequests s))
          (mkStats (processed (stats s)) (failed (stats s)) (pending (stats s) + 1 + -1))
          (promises s ++ [mkPromise None []])
          (loops s ++ [AwaitUpstream job]) (upstream s ++ [k])
          (microtasks s) (observed s)) ∧
  segment (EvCall c k t1 t2) s
  = Some (mkQueue [] true (<[k := p]> (pendingRequests s))
            (mkStats (processed (stats s)) (failed (stats s)) (pending (stats s) + 1 + -1))
            (promises s ++ [mkPromise None [mkWaiter c k]])
            (loops s ++ [AwaitUpstream job]) (upstream s ++ [k])
            (microtasks s) (observed s)).
Proof.
  intros Hk Hp Hq p job.
  assert (addUserFetchJob k t1 t2 s
          = (p, mkQueue [] true (<[k := p]> (pendingRequests s))
              (mkStats (processed (stats s)) (failed (stats s)) (pending (stats s) + 1 + -1))
              (promises s ++ [mkPromise None []])
              (loops s ++ [AwaitUpstream job]) (upstream s ++ [k])
              (microtasks s) (observed s))) as Hadd.
  { unfold addUserFetchJob. rewrite Hk. unfold new_promise. unfold_setters.
    rewrite Hp, Hq. cbn [negb app].
    unfold processQueue. unfold_setters. cbn [orb length Nat.eqb].
    unfold while_head. unfold_setters. done. }
  split; [exact Hadd|].
  unfold segment. rewrite Hadd. unfold await. cbn [promises].
  rewrite lookup_app_r by done. subst p. rewrite Nat.sub_diag. cbn [lookup list_lookup].
  unfold_setters. f_equal. f_equal.
  rewrite insert_app_r_alt by done. by rewrite Nat.sub_diag.
Qed.

Lemma Inv_single_loop i a (s : QueueService) :
  Inv s -> loops s !! i = Some a ->
  i = 0%nat ∧ loops s = [a] ∧ processing s = true.
Proof.
  intros HI Hi. destruct (inv_loops s HI) as [(_ & Hl & _)|(Hp & b & Hl)].
  - by rewrite Hl in Hi.
  - rewrite Hl in Hi. destruct i as [|i]; [|by destruct i].
    cbn in Hi. injection Hi as ->. done.
Qed.

(** The return of the database: the promise of the job is settled, its
    reactions are queued, the counter moves and the key leaves the map, all
    before the loop suspends on the timer; the waiters run after that. *)
Lemma segment_upstream i r job (s : QueueService) :
  Inv s ->
  loops s !! i = Some (AwaitUpstream job) ->
  ∃ rs,
    promises s !! promise job = Some (mkPromise None rs) ∧
    (∀ w, w ∈ rs -> key w = userId job) ∧
    loops s = [AwaitUpstream job] ∧
    after_upstream job r s
    = mkQueue (queue s) (processing s)
        (base.delete (userId job) (pendingRequests s))
        (stats_after r (stats s))
        (<[promise job := mkPromise (Some (outcome_of r)) []]> (promises s))
        (loops s) (upstream s)
        (map (fun w => (w, outcome_of r)) rs) (observed s) ∧
    step (EvUpstream i r) s
    = Some (mkQueue (queue s) (processing s)
              (base.delete (userId job) (pendingRequests s))
              (stats_after r (stats s))
              (<[promise job := mkPromise (Some (outcome_of r)) []]> (promises s))
              [AwaitDelay 10] (upstream s) []
              (observed s ++ map (fun w => mkObs w (outcome_of r) None) rs)).
Proof.
  intros HI Hi.
  destruct (Inv_single_loop _ _ _ HI Hi) as (-> & Hl & Hp).
  assert (job ∈ live s) as Hlive.
  { unfold live, in_flight. rewrite Hl. cbn. apply elem_of_app. right. by left. }
  destruct (inv_live s HI job Hlive) as (rs & Hpr & Hrs).
  exists rs. split; [done|]. split; [done|]. split; [done|].
  assert (after_upstream job r s
    = mkQueue (queue s) (processing s)
        (base.delete (userId job) (pendingRequests s))
        (stats_after r (stats s))
        (<[promise job := mkPromise (Some (outcome_of r)) []]> (promises s))
        (loops s) (upstream s)
        (map (fun w => (w, outcome_of r)) rs) (observed s)) as Hafter.
  { unfold after_upstream.
    destruct r as [user|error]; rewrite (settle_pending _ _ rs) by done;
      unfold_setters; cbn [outcome_of stats_after];
      by rewrite (inv_micro s HI). }
  split; [exact Hafter|].
  unfold step, segment. rewrite Hi, Hafter. cbn [fmap option_fmap option_map].
  unfold run_microtasks. unfold_setters. rewrite Hl. cbn [insert list_insert].
  f_equal. f_equal. f_equal. rewrite map_map. cbn [fst snd].
  apply map_ext_in. intros w Hw. apply list_elem_of_In in Hw.
  rewrite (Hrs w Hw). by rewrite lookup_delete_eq.
Qed.

(** The timer: the loop takes the next job, or ends. *)
Lemma segment_timer i ms (s : QueueService) :
  Inv s ->
  loops s !! i = Some (AwaitDelay ms) ->
  loops s = [AwaitDelay ms] ∧
  step (EvTimer i) s
  = Some match queue s with
         | [] =>
             mkQueue [] false (pendingRequests s) (stats s) (promises s)
                     [] (upstream s) [] (observed s)
         | job :: rest =>
             mkQueue rest (processing s) (pendingRequests s)
                     (mkStats (processed (stats s)) (failed (stats s))
                              (pending (stats s) + -1))
                     (promises s) [AwaitUpstream job]
                     (upstream s ++ [userId job]) [] (observed s)
         end.
Proof.
  intros HI Hi.
  destruct (Inv_single_loop _ _ _ HI Hi) as (-> & Hl & Hp).
  split; [done|].
  unfold step, segment. rewrite Hi. rewrite Hl. cbn [base.delete list_delete].
  unfold while_head. unfold_setters.
  destruct (queue s) as [|job rest] eqn:Hq; cbn [fmap option_fmap option_map];
    unfold run_microtasks; unfold_setters;
    rewrite (inv_micro s HI); cbn [map app]; by rewrite app_nil_r.
Qed.

(** [close] on its queue: every queued promise is rejected with the
    shutdown error and its waiters are queued; nothing else moves. *)
Lemma reject_all_spec (jobs : list QueueJob) (s : QueueService) :
  NoDup (promise <$> jobs) ->
  (∀ j, j ∈ jobs -> ∃ rs, promises s !! promise j = Some (mkPromise None rs)) ->
  let s' := reject_all jobs s in
  (queue s' = queue s ∧ processing s' = processing s ∧
   pendingRequests s' = pendingRequests s ∧ stats s' = stats s ∧
   loops s' = loops s ∧ upstream s' = upstream s ∧ observed s' = observed s ∧
   length (promises s') = length (promises s)) ∧
  (∀ j, j ∈ jobs ->
     promises s' !! promise j
     = Some (mkPromise (Some (Rejected shutdown_error)) [])) ∧
  (∀ p, p ∉ promise <$> jobs -> promises s' !! p = promises s !! p) ∧
  (∀ j rs w, j ∈ jobs -> promises s !! promise j = Some (mkPromise None rs) ->
     w ∈ rs -> (w, Rejected shutdown_error) ∈ microtasks s') ∧
  (∀ wo, wo ∈ microtasks s -> wo ∈ microtasks s').
Proof.
  revert s. induction jobs as [|j jobs IH]; intros s Hnd Hpend s'.
  - subst s'. cbn. repeat split; try done.
    + intros j Hj. by apply elem_of_nil in Hj.
    + intros j rs w Hj. by apply elem_of_nil in Hj.
  - rewrite fmap_cons in Hnd. apply NoDup_cons in Hnd as [Hj Hnd].
    destruct (Hpend j ltac:(by left)) as (rs & Hrs).
    subst s'.
    change (reject_all (j :: jobs) s)
      with (reject_all jobs (settle (promise j) (Rejected shutdown_error) s)).
    set (s1 := settle (promise j) (Rejected shutdown_error) s).
    assert (s1 = set_microtasks
                   (microtasks s ++ map (fun w => (w, Rejected shutdown_error)) rs)
                   (set_promises
                      (<[promise j := mkPromise (Some (Rejected shutdown_error)) []]>
                         (promises s)) s)) as Hs1
      by (by apply settle_pending).
    assert (∀ p, p ≠ promise j -> promises s1 !! p = promises s !! p) as Hother.
    { intros p Hp. rewrite Hs1. unfold_setters. by rewrite list_lookup_insert_ne. }
    assert (∀ j', j' ∈ jobs -> promise j' ≠ promise j) as Hdiff.
    { intros j' Hj' Heq. apply Hj. rewrite <- Heq.
      apply list_elem_of_fmap. eauto. }
    specialize (IH s1 Hnd).
    destruct IH as (Hsame & Hrej & Hkeep & Hmt & Hmono).
    { intros j' Hj'. destruct (Hpend j' ltac:(by right)) as (rs' & Hrs').
      exists rs'. rewrite Hother; [done|by apply Hdiff]. }
    assert (promises s1 !! promise j
            = Some (mkPromise (Some (Rejected shutdown_error)) [])) as Hj1.
    { rewrite Hs1. unfold_setters. apply list_lookup_insert_eq.
      by apply lookup_lt_Some in Hrs. }
    split; [|split; [|split; [|split]]].
    + destruct Hsame as (-> & -> & -> & -> & -> & -> & -> & ->).
      rewrite Hs1. unfold_setters. by rewrite length_insert.
    + intros j' Hj'. apply elem_of_cons in Hj' as [->|Hj'].
      * rewrite Hkeep; [exact Hj1|done].
      * by apply Hrej.
    + intros p Hp. rewrite fmap_cons in Hp. apply not_elem_of_cons in Hp as [Hp1 Hp2].
      rewrite Hkeep by done. by apply Hother.
    + intros j' rs' w Hj' Hrs' Hw. apply elem_of_cons in Hj' as [->|Hj'].
      * apply Hmono. rewrite Hs1. unfold_setters.
        rewrite Hrs in Hrs'. injection Hrs' as <-.
        apply elem_of_app. right. apply list_elem_of_In, in_map_iff.
        exists w. split; [done|]. by apply list_elem_of_In.
      * apply (Hmt j' rs' w Hj'); [|done]. rewrite Hother; [done|by apply Hdiff].
    + intros wo Hwo. apply Hmono. rewrite Hs1. unfold_setters.
      apply elem_of_app. by left.
Qed.

(** *** The invariant *)

Lemma NoDup_fmap_eq {A B} (f : A -> B) (l : list A) x y :
  NoDup (f <$> l) -> x ∈ l -> y ∈ l -> f x = f y -> x = y.
Proof.
  induction l as [|a l IH]; intros Hnd Hx Hy Hf.
  - by apply elem_of_nil in Hx.
  - rewrite fmap_cons in Hnd. apply NoDup_cons in Hnd as [Ha Hnd].
    apply elem_of_cons in Hx as [->|Hx]; apply elem_of_cons in Hy as [->|Hy].
    + done.
    + exfalso. apply Ha. rewrite Hf. apply list_elem_of_fmap. eauto.
    + exfalso. apply Ha. rewrite <- Hf. apply list_elem_of_fmap. eauto.
    + by apply IH.
Qed.

Lemma run_microtasks_nil (s : QueueService) :
  microtasks s = [] -> run_microtasks s = s.
Proof.
  intros H. unfold run_microtasks. unfold_setters. rewrite H. cbn [map].
  rewrite app_nil_r. destruct s; cbn in *. by subst.
Qed.

Lemma live_lt (s : QueueService) j :
  Inv s -> j ∈ live s -> (promise j < length (promises s))%nat.
Proof.
  intros HI Hj. destruct (inv_live s HI j Hj) as (rs & Hp & _).
  by apply lookup_lt_Some in Hp.
Qed.

Lemma fresh_not_live (s : QueueService) :
  Inv s -> length (promises s) ∉ promise <$> live s.
Proof.
  intros HI Hin. apply list_elem_of_fmap in Hin as (j & Hj & Hin).
  pose proof (live_lt s j HI Hin). lia.
Qed.

Lemma Inv_new : Inv new.
Proof.
  constructor; cbn; try done.
  - left. done.
  - apply NoDup_nil_2.
  - intros j Hj. by apply elem_of_nil in Hj.
  - intros o Ho. by apply elem_of_nil in Ho.
Qed.

Lemma Inv_call c k t1 t2 (s s' : QueueService) :
  Inv s -> step (EvCall c k t1 t2) s = Some s' -> Inv s'.
Proof.
  intros HI Hstep. unfold step in Hstep.
  destruct (pendingRequests s !! k) as [p|] eqn:Hk.
  - destruct (segment_call_registered c k t1 t2 p s HI Hk) as (rs & Hp & _ & Hseg).
    rewrite Hseg in Hstep. cbn in Hstep.
    rewrite run_microtasks_nil in Hstep by (cbn; apply (inv_micro s HI)).
    injection Hstep as <-.
    destruct (inv_map s HI k p Hk) as (j0 & Hj0 & Hpj0 & Huj0).
    constructor; unfold live, in_flight; unfold_setters;
      try apply HI.
    + intros j Hj. destruct (decide (promise j = p)) as [Hjp|Hjp].
      * assert (j = j0) as ->.
        { apply (NoDup_fmap_eq promise (live s)); try done;
            [apply HI | congruence]. }
        exists (rs ++ [mkWaiter c k]). split.
        -- rewrite Hjp. apply list_lookup_insert_eq. by apply lookup_lt_Some in Hp.
        -- destruct (inv_live s HI j0 Hj0) as (rs0 & Hp0 & Hrs0).
           rewrite Hpj0, Hp in Hp0. injection Hp0 as <-.
           intros w Hw. apply elem_of_app in Hw as [Hw|Hw]; [by apply Hrs0|].
           apply list_elem_of_singleton in Hw. subst w. done.
      * destruct (inv_live s HI j Hj) as (rs' & Hp' & Hrs').
        exists rs'. split; [|done]. by rewrite list_lookup_insert_ne.
    + rewrite length_insert. apply HI.
  - destruct (processing s) eqn:Hproc.
    + destruct (segment_call_busy c k t1 t2 s Hk Hproc) as [_ Hseg].
      rewrite Hseg in Hstep. cbn in Hstep.
      rewrite run_microtasks_nil in Hstep by (cbn; apply (inv_micro s HI)).
      injection Hstep as <-.
      set (job := mkJob (k, t1) k t2 (length (promises s))).
      assert (∀ j, j ∈ (queue s ++ [job]) ++ in_flight s <-> j = job ∨ j ∈ live s)
        as Hlive.
      { intros j. unfold live. rewrite !elem_of_app, list_elem_of_singleton. tauto. }
      constructor; unfold_setters;
        try match goal with |- context [live ?x] =>
          change (live x) with ((queue s ++ [job]) ++ in_flight s) end.
      * right. split; [done|].
        destruct (inv_loops s HI) as [(Hf & _)|(_ & Ha)]; [congruence|done].
      * apply HI.
      * rewrite <- app_assoc, fmap_app.
        apply NoDup_app. pose proof (inv_nodup s HI) as Hnd.
        unfold live in Hnd. rewrite fmap_app in Hnd.
        apply NoDup_app in Hnd as (Hq & Hqf & Hf).
        split; [done|]. split.
        -- intros x Hx Hx'. rewrite fmap_app in Hx'. cbn in Hx'.
           apply elem_of_cons in Hx' as [->|Hx']; [|by apply (Hqf x)].
           apply (fresh_not_live s HI). unfold live. rewrite fmap_app.
           apply elem_of_app. by left.
        -- rewrite fmap_app. cbn. apply NoDup_cons. split; [|done].
           intros Hin. apply (fresh_not_live s HI). unfold live. rewrite fmap_app.
           apply elem_of_app. by right.
      * intros j Hj. apply Hlive in Hj as [->|Hj].
        -- exists [mkWaiter c k]. cbn [promise userId job]. split.
           ++ rewrite lookup_app_r by done. by rewrite Nat.sub_diag.
           ++ intros w Hw. apply list_elem_of_singleton in Hw. by subst w.
        -- destruct (inv_live s HI j Hj) as (rs & Hp & Hrs).
           exists rs. split; [|done]. rewrite lookup_app_l; [done|].
           by apply lookup_lt_Some in Hp.
      * intros k' p' Hk'. destruct (decide (k' = k)) as [->|Hne].
        -- rewrite lookup_insert_eq in Hk'. injection Hk' as <-.
           exists job. split; [apply Hlive; by left|done].
        -- rewrite lookup_insert_ne in Hk' by done.
           destruct (inv_map s HI k' p' Hk') as (j & Hj & Hjp & Hju).
           exists j. split; [apply Hlive; by right|done].
      * apply HI.
      * rewrite length_app. cbn [length]. rewrite (inv_pending s HI). lia.
    + destruct (inv_loops s HI) as [(_ & Hl & Hq)|(Ht & _)]; [|congruence].
      destruct (segment_call_idle c k t1 t2 s Hk Hproc Hq) as [_ Hseg].
      rewrite Hseg in Hstep. cbn in Hstep.
      rewrite run_microtasks_nil in Hstep by (cbn; apply (inv_micro s HI)).
      injection Hstep as <-.
      set (job := mkJob (k, t1) k t2 (length (promises s))).
      assert (live s = []) as Hlive0 by (unfold live, in_flight; by rewrite Hl, Hq).
      constructor; unfold live, in_flight; unfold_setters; rewrite ?Hl; cbn [app omap].
      * right. split; [done|]. by exists (AwaitUpstream job).
      * apply HI.
      * apply NoDup_singleton.
      * intros j Hj. apply list_elem_of_singleton in Hj. subst j.
        exists [mkWaiter c k]. cbn [promise userId job]. split.
        -- rewrite lookup_app_r by done. by rewrite Nat.sub_diag.
        -- intros w Hw. apply list_elem_of_singleton in Hw. by subst w.
      * intros k' p' Hk'. destruct (decide (k' = k)) as [->|Hne].
        -- rewrite lookup_insert_eq in Hk'. injection Hk' as <-.
           exists job. split; [by apply list_elem_of_singleton|done].
        -- rewrite lookup_insert_ne in Hk' by done.
           destruct (inv_map s HI k' p' Hk') as (j & Hj & _).
           rewrite Hlive0 in Hj. by apply elem_of_nil in Hj.
      * apply HI.
      * rewrite !length_app. cbn [length]. rewrite (inv_pending s HI). lia.
Qed.

Lemma Inv_upstream i r (s s' : QueueService) :
  Inv s -> step (EvUpstream i r) s = Some s' -> Inv s'.
Proof.
  intros HI Hstep.
  destruct (loops s !! i) as [[job|ms]|] eqn:Hi;
    [|unfold step, segment in Hstep; by rewrite Hi in Hstep..].
  destruct (segment_upstream i r job s HI Hi) as (rs & Hp & Hrs & Hl & _ & Hseg).
  rewrite Hseg in Hstep. injection Hstep as <-.
  assert (live s = queue s ++ [job]) as Hlive
    by (unfold live, in_flight; by rewrite Hl).
  pose proof (inv_nodup s HI) as Hnd. rewrite Hlive, fmap_app in Hnd.
  apply NoDup_app in Hnd as (Hq & Hqf & _).
  constructor; unfold_setters;
    try match goal with |- context [live ?x] =>
      change (live x) with (queue s ++ []) end;
    rewrite ?app_nil_r.
  - right. split; [|by eexists].
    destruct (inv_loops s HI) as [(_ & Hl' & _)|(Ht & _)]; [|done].
    by rewrite Hl in Hl'.
  - done.
  - done.
  - intros j Hj.
    destruct (inv_live s HI j) as (rs' & Hp' & Hrs').
    { rewrite Hlive. apply elem_of_app. by left. }
    exists rs'. split; [|done]. rewrite list_lookup_insert_ne; [done|].
    intros Heq. apply (Hqf (promise j)).
    + apply list_elem_of_fmap. eauto.
    + rewrite <- Heq. cbn. by left.
  - intros k p Hk. apply lookup_delete_Some in Hk as [Hne Hk].
    destruct (inv_map s HI k p Hk) as (j & Hj & Hjp & Hju).
    exists j. split; [|done]. rewrite Hlive in Hj.
    apply elem_of_app in Hj as [Hj|Hj]; [done|].
    apply list_elem_of_singleton in Hj. subst j. congruence.
  - intros o Ho. apply elem_of_app in Ho as [Ho|Ho]; [by apply HI|].
    apply list_elem_of_In, in_map_iff in Ho as (w & <- & _). done.
  - rewrite length_insert. destruct r; cbn; apply HI.
Qed.

Lemma Inv_timer i (s s' : QueueService) :
  Inv s -> step (EvTimer i) s = Some s' -> Inv s'.
Proof.
  intros HI Hstep.
  destruct (loops s !! i) as [[job|ms]|] eqn:Hi;
    [unfold step, segment in Hstep; by rewrite Hi in Hstep| |
     unfold step, segment in Hstep; by rewrite Hi in Hstep].
  destruct (segment_timer i ms s HI Hi) as (Hl & Hseg).
  rewrite Hseg in Hstep. injection Hstep as <-.
  assert (live s = queue s) as Hlive
    by (unfold live, in_flight; rewrite Hl; cbn; by rewrite app_nil_r).
  destruct (queue s) as [|job rest] eqn:Hq.
  - constructor; unfold_setters;
      try match goal with |- context [live ?x] => change (live x) with (@nil QueueJob) end.
    + left. done.
    + done.
    + apply NoDup_nil_2.
    + intros j Hj. by apply elem_of_nil in Hj.
    + intros k p Hk. destruct (inv_map s HI k p Hk) as (j & Hj & _).
      rewrite Hlive in Hj. by apply elem_of_nil in Hj.
    + apply HI.
    + apply HI.
  - assert (∀ j, j ∈ rest ++ [job] <-> j ∈ live s) as Hmem.
    { intros j. rewrite Hlive, elem_of_app, list_elem_of_singleton, elem_of_cons. tauto. }
    constructor; unfold_setters;
      try match goal with |- context [live ?x] =>
        change (live x) with (rest ++ [job]) end.
    + right. split; [|by eexists].
      destruct (inv_loops s HI) as [(_ & Hl' & _)|(Ht & _)]; [|done].
      by rewrite Hl in Hl'.
    + done.
    + pose proof (inv_nodup s HI) as Hnd. rewrite Hlive in Hnd.
      rewrite fmap_cons in Hnd. apply NoDup_cons in Hnd as [Hj Hnd].
      rewrite fmap_app. apply NoDup_app. split; [done|]. split.
      * intros x Hx Hx'. cbn in Hx'. apply list_elem_of_singleton in Hx'. by subst x.
      * apply NoDup_singleton.
    + intros j Hj. apply Hmem in Hj. by apply HI.
    + intros k p Hk. destruct (inv_map s HI k p Hk) as (j & Hj & Hjp).
      exists j. split; [by apply Hmem|done].
    + apply HI.
    + rewrite length_app. cbn [length]. rewrite (inv_pending s HI). lia.
Qed.

(** [close], between two states that satisfy [Inv]. *)
Lemma step_close (s : QueueService) :
  Inv s ->
  ∃ s', step EvClose s = Some s' ∧
    queue s' = [] ∧ processing s' = processing s ∧ pendingRequests s' = ∅ ∧
    stats s' = stats s ∧ loops s' = loops s ∧ upstream s' = upstream s ∧
    microtasks s' = [] ∧
    promises s' = promises (close s) ∧
    length (promises s') = length (promises s) ∧
    (∀ j, j ∈ queue s ->
       promises s' !! promise j
       = Some (mkPromise (Some (Rejected shutdown_error)) [])) ∧
    (∀ p, p ∉ promise <$> queue s -> promises s' !! p = promises s !! p) ∧
    (∀ o, o ∈ observed s' ->
       o ∈ observed s ∨ (outcome o = Rejected shutdown_error ∧ registered o = None)) ∧
    (∀ o, o ∈ observed s -> o ∈ observed s') ∧
    (∀ j rs w, j ∈ queue s -> promises s !! promise j = Some (mkPromise None rs) ->
       w ∈ rs -> mkObs w (Rejected shutdown_error) None ∈ observed s').
Proof.
  intros HI. eexists. split; [reflexivity|].
  pose proof (inv_nodup s HI) as Hnd. unfold live in Hnd. rewrite fmap_app in Hnd.
  apply NoDup_app in Hnd as (Hq & _ & _).
  destruct (reject_all_spec (queue s) s Hq) as (Hsame & Hrej & Hkeep & Hmt & Hmono).
  { intros j Hj. destruct (inv_live s HI j) as (rs & Hp & _); [|by eauto].
    unfold live. apply elem_of_app. by left. }
  destruct Hsame as (Hsq & Hsp & Hsm & Hss & Hsl & Hsu & Hso & Hlen).
  unfold run_microtasks, close. unfold_setters.
  repeat (split; [done|]).
  split.
  { intros o Ho. apply elem_of_app in Ho as [Ho|Ho].
    - left. by rewrite <- Hso.
    - right. apply list_elem_of_In, in_map_iff in Ho as ([w o'] & <- & Hin).
      cbn. split; [|apply lookup_empty].
      apply list_elem_of_In in Hin.
      (* every queued microtask carries the shutdown error *)
      clear -Hin HI.
      assert (∀ jobs s0, microtasks s0 = [] ->
                ∀ wo, wo ∈ microtasks (reject_all jobs s0) ->
                wo.2 = Rejected shutdown_error) as Hall.
      { assert (∀ jobs s0,
                  (∀ wo, wo ∈ microtasks s0 -> wo.2 = Rejected shutdown_error) ->
                  ∀ wo, wo ∈ microtasks (reject_all jobs s0) ->
                  wo.2 = Rejected shutdown_error) as Hgen.
        { induction jobs as [|j jobs IH]; intros s0 H0 wo Hwo; [by apply H0|].
          change (reject_all (j :: jobs) s0)
            with (reject_all jobs (settle (promise j) (Rejected shutdown_error) s0))
            in Hwo.
          apply (IH _) in Hwo; [done|].
          intros wo' Hwo'. unfold settle in Hwo'.
          destruct (promises s0 !! promise j) as [[[o|] rs]|]; try by apply H0.
          revert Hwo'. unfold_setters. intros Hwo'.
          apply elem_of_app in Hwo' as [Hwo'|Hwo']; [by apply H0|].
          apply list_elem_of_In, in_map_iff in Hwo' as (w' & <- & _). done. }
        intros jobs s0 H0. apply Hgen. rewrite H0. intros wo Hwo.
        by apply elem_of_nil in Hwo. }
      apply (Hall (queue s) s (inv_micro s HI) (w, o') Hin). }
  split.
  { intros o Ho. apply elem_of_app. left. by rewrite Hso. }
  intros j rs w Hj Hp Hw. apply elem_of_app. right.
  apply list_elem_of_In, in_map_iff. exists (w, Rejected shutdown_error).
  cbn. split; [by rewrite lookup_empty|].
  apply list_elem_of_In. by apply (Hmt j rs w).
Qed.

Lemma Inv_close (s s' : QueueService) :
  Inv s -> step EvClose s = Some s' -> Inv s'.
Proof.
  intros HI Hstep.
  destruct (step_close s HI) as
    (s0 & Hs0 & Hq & Hp & Hm & Hst & Hl & Hu & Hmt & _ & Hlen & Hrej & Hkeep & Hobs & _).
  rewrite Hs0 in Hstep. injection Hstep as <-.
  assert (live s0 = in_flight s) as Hlive
    by (unfold live, in_flight; by rewrite Hq, Hl).
  pose proof (inv_nodup s HI) as Hnd. unfold live in Hnd. rewrite fmap_app in Hnd.
  apply NoDup_app in Hnd as (_ & Hqf & Hf).
  constructor; rewrite ?Hlive.
  - rewrite Hp, Hl, Hq.
    destruct (inv_loops s HI) as [(? & ? & ?)|(? & ?)]; [left|right]; done.
  - done.
  - done.
  - intros j Hj. destruct (inv_live s HI j) as (rs & Hpj & Hrs).
    { unfold live. apply elem_of_app. by right. }
    exists rs. split; [|done]. rewrite Hkeep; [done|].
    intros Hin. apply (Hqf _ Hin). apply list_elem_of_fmap. eauto.
  - intros k p Hk. rewrite Hm in Hk. by rewrite lookup_empty in Hk.
  - intros o Ho. apply Hobs in Ho as [Ho|[_ Ho]]; [by apply HI|done].
  - rewrite Hst, Hlen, Hu. apply HI.
Qed.

Lemma Inv_step ev (s s' : QueueService) :
  Inv s -> step ev s = Some s' -> Inv s'.
Proof.
  destruct ev; eauto using Inv_call, Inv_upstream, Inv_timer, Inv_close.
Qed.

Lemma reachable_Inv (s : QueueService) : reachable s -> Inv s.
Proof. induction 1; eauto using Inv_new, Inv_step. Qed.

Lemma run_reachable evs (s s' : QueueService) :
  reachable s -> run evs s = Some s' -> reachable s'.
Proof.
  revert s. induction evs as [|ev evs IH]; intros s Hs Hrun; cbn in Hrun.
  - by injection Hrun as <-.
  - destruct (step ev s) as [s1|] eqn:Hstep; [|done].
    eapply IH; [|done]. by eapply reachable_step.
Qed.

Lemma after_reachable evs s : run evs new = Some s -> reachable (after evs).
Proof.
  intros H. unfold after. rewrite H. cbn.
  eapply run_reachable; [apply reachable_new | exact H].
Qed.

(** *** A call that starts a fetch *)

Lemma fetches_enqueue k job (s s1 : QueueService) :
  userId job = k ->
  upstream s1 = upstream s -> queue s1 = queue s ++ [job] ->
  fetches k s1 = S (fetches k s).
Proof.
  intros Hk Hu Hq. unfold fetches. rewrite Hu, Hq.
  rewrite filter_app, length_app.
  rewrite (filter_cons_True (fun j => userId j = k) job []) by done.
  cbn. lia.
Qed.

Lemma fetches_start k (s s1 : QueueService) :
  upstream s1 = upstream s ++ [k] -> queue s1 = queue s ->
  fetches k s1 = S (fetches k s).
Proof.
  intros Hu Hq. unfold fetches. rewrite Hu, Hq.
  rewrite filter_app, length_app.
  rewrite (filter_cons_True (fun u => u = k) k []) by done.
  cbn. lia.
Qed.

Lemma call_fresh k t1 t2 (s : QueueService) :
  Inv s ->
  pendingRequests s !! k = None ->
  let r := addUserFetchJob k t1 t2 s in
  r.1 = length (promises s) ∧
  promises r.2 = promises s ++ [mkPromise None []] ∧
  pendingRequests r.2 = <[k := r.1]> (pendingRequests s) ∧
  fetches k r.2 = S (fetches k s) ∧
  (processing s = true -> queue r.2 = queue s ++ [mkJob (k, t1) k t2 r.1]) ∧
  (processing s = false ->
     upstream r.2 = upstream s ++ [k] ∧
     loops r.2 = [AwaitUpstream (mkJob (k, t1) k t2 r.1)]).
Proof.
  intros HI Hk r. subst r. destruct (processing s) eqn:Hp.
  - destruct (segment_call_busy 0 k t1 t2 s Hk Hp) as [-> _]. cbn [fst snd].
    repeat split; try done.
    eapply fetches_enqueue; [| |reflexivity]; done.
  - destruct (inv_loops s HI) as [(_ & Hl & Hq)|(Ht & _)]; [|congruence].
    destruct (segment_call_idle 0 k t1 t2 s Hk Hp Hq) as [-> _]. cbn [fst snd].
    repeat split; try done.
    + eapply fetches_start; cbn; [done|by rewrite Hq].
    + cbn. by rewrite Hl.
Qed.





(** The example of the specification: three callers (here two for user 1,
    one for user 2), then the answers of the database: one call per key,
    and the two callers of user 1 observe the same value. *)
Example dedup_run :
  let s := after (three_calls ++
                  [EvUpstream 0 (Returns (Some john)); EvTimer 0;
                   EvUpstream 0 (Throws ThrownOther); EvTimer 0]) in
  upstream s = [1; 2] ∧
  observed s
  = [mkObs (mkWaiter 0 1) (Fulfilled (Some john)) None;
     mkObs (mkWaiter 1 1) (Fulfilled (Some john)) None;
     mkObs (mkWaiter 2 2) (Rejected (mkError "Unknown error")) None] ∧
  processing s = false.
Proof. vm_compute. done. Qed.

(** *** The return of the database *)

Lemma completion i r job (s s' : QueueService) :
  Inv s ->
  loops s !! i = Some (AwaitUpstream job) ->
  step (EvUpstream i r) s = Some s' ->
  ∃ rs,
    promises s !! promise job = Some (mkPromise None rs) ∧
    microtasks (after_upstream job r s) = map (fun w => (w, outcome_of r)) rs ∧
    observed (after_upstream job r s) = observed s ∧
    pendingRequests (after_upstream job r s) !! userId job = None ∧
    observed s' = observed s ++ map (fun w => mkObs w (outcome_of r) None) rs ∧
    promises s' !! promise job = Some (mkPromise (Some (outcome_of r)) []) ∧
    pendingRequests s' !! userId job = None ∧
    stats s' = stats_after r (stats s) ∧
    upstream s' = upstream s ∧ queue s' = queue s ∧
    loops s' = [AwaitDelay 10] ∧ processing s' = true.
Proof.
  intros HI Hi Hstep.
  destruct (segment_upstream i r job s HI Hi) as (rs & Hp & _ & _ & Hafter & Hseg).
  destruct (Inv_single_loop _ _ _ HI Hi) as (_ & _ & Hproc).
  rewrite Hseg in Hstep. injection Hstep as <-. rewrite Hafter.
  exists rs. cbn. repeat split; try done; try apply lookup_delete_eq.
  apply list_lookup_insert_eq. by apply lookup_lt_Some in Hp.
Qed.

(** A call for the key of a job that has just completed starts afresh. *)
Lemma call_after_completion i r job (s s' : QueueService) t1 t2 :
  Inv s ->
  loops s !! i = Some (AwaitUpstream job) ->
  step (EvUpstream i r) s = Some s' ->
  let c := addUserFetchJob (userId job) t1 t2 s' in
  c.1 ≠ promise job ∧
  promises c.2 !! c.1 = Some (mkPromise None []) ∧
  pendingRequests c.2 !! userId job = Some c.1 ∧
  queue c.2 = queue s' ++ [mkJob (userId job, t1) (userId job) t2 c.1] ∧
  fetches (userId job) c.2 = S (fetches (userId job) s').
Proof.
  intros HI Hi Hstep c. subst c.
  pose proof (Inv_step _ _ _ HI Hstep) as HI'.
  destruct (completion i r job s s' HI Hi Hstep)
    as (rs & Hp & _ & _ & _ & _ & Hp' & Hk & _ & _ & _ & _ & Hproc).
  destruct (call_fresh (userId job) t1 t2 s' HI' Hk) as (H1 & H2 & H3 & H4 & H5 & _).
  split; [|split; [|split; [|split]]].
  - rewrite H1. apply lookup_lt_Some in Hp'. lia.
  - rewrite H2, H1. rewrite lookup_app_r by done. by rewrite Nat.sub_diag.
  - rewrite H3. apply lookup_insert_eq.
  - by apply H5.
  - done.
Qed.

(** C6. When the call of the database for a job fails, every waiter of the
    promise of that job observes the same rejection, the promise is
    rejected, the key leaves [pendingRequests] and [failed] goes up; no
    failure is kept: the next [addUserFetchJob] for the key makes a fresh
    pending promise and a new job, one more fetch of the key. *)
Theorem upstream_failure i error job (s s' : QueueService) :
  reachable s ->
  loops s !! i = Some (AwaitUpstream job) ->
  step (EvUpstream i (Throws error)) s = Some s' ->
  (∃ rs, promises s !! promise job = Some (mkPromise None rs) ∧
     observed s'
     = observed s ++ map (fun w => mkObs w (Rejected (to_Error error)) None) rs) ∧
  promises s' !! promise job
  = Some (mkPromise (Some (Rejected (to_Error error))) []) ∧
  pendingRequests s' !! userId job = None ∧
  failed (stats s') = failed (stats s) + 1 ∧
  upstream s' = upstream s ∧
  ∀ t1 t2,
    let c := addUserFetchJob (userId job) t1 t2 s' in
    c.1 ≠ promise job ∧
    promises c.2 !! c.1 = Some (mkPromise None []) ∧
    pendingRequests c.2 !! userId job = Some c.1 ∧
    queue c.2 = queue s' ++ [mkJob (userId job, t1) (userId job) t2 c.1] ∧
    fetches (userId job) c.2 = S (fetches (userId job) s').
Proof.
  intros Hs Hi Hstep. pose proof (reachable_Inv s Hs) as HI.
  destruct (completion i _ job s s' HI Hi Hstep)
    as (rs & Hp & _ & _ & _ & Hobs & Hp' & Hk & Hst & Hu & _).
  split; [by exists rs|]. split; [done|]. split; [done|].
  split; [by rewrite Hst|]. split; [done|].
  intros t1 t2. by apply (call_after_completion i (Throws error) job s s').
Qed.

Lemma upstream_failure_witness :
  let s := after three_calls in
  let s' := after (three_calls ++ [EvUpstream 0 (Throws ThrownOther)]) in
  reachable s ∧
  observed s'
  = [mkObs (mkWaiter 0 1) (Rejected (mkError "Unknown error")) None;
     mkObs (mkWaiter 1 1) (Rejected (mkError "Unknown error")) None] ∧
  pendingRequests s' !! 1 = None ∧
  (addUserFetchJob 1 2000 2000 s').1 ≠ 0%nat.
Proof.
  cbv zeta.
  assert (reachable (after three_calls)) as Hr.
  { apply (after_reachable three_calls (after three_calls)).
    vm_compute. reflexivity. }
  split; [exact Hr|].
  pose proof (upstream_failure 0 ThrownOther
                (mkJob (1, 1000) 1 1000 0)
                (after three_calls)
                (after (three_calls ++ [EvUpstream 0 (Throws ThrownOther)]))
                Hr ltac:(vm_compute; reflexivity) ltac:(vm_compute; reflexivity))
    as (_ & _ & Hk & _ & _ & Hnext).
  split; [vm_compute; reflexivity|]. split; [exact Hk|].
  apply (Hnext 2000 2000).
Defined.

(** *** One fetch at a time, and the counters *)

(** What any event does to the counters and to the list of calls issued to
    the database. *)
Lemma step_effect ev (s s' : QueueService) :
  Inv s -> step ev s = Some s' ->
  processed (stats s) <= processed (stats s') ∧
  failed (stats s) <= failed (stats s') ∧
  (upstream s' = upstream s ∨
   (in_flight s = [] ∧
    ∃ j, in_flight s' = [j] ∧ upstream s' = upstream s ++ [userId j] ∧
      ((∃ i, ev = EvTimer i) ∨
       (∃ c k t1 t2, ev = EvCall c k t1 t2 ∧ processing s = false)))).
Proof.
  intros HI Hstep. destruct ev as [c k t1 t2|i r|i|].
  - unfold step in Hstep. destruct (pendingRequests s !! k) as [p|] eqn:Hk.
    + destruct (segment_call_registered c k t1 t2 p s HI Hk) as (rs & _ & _ & Hseg).
      rewrite Hseg in Hstep. cbn in Hstep. injection Hstep as <-. cbn.
      split; [lia|]. split; [lia|]. by left.
    + destruct (processing s) eqn:Hproc.
      * destruct (segment_call_busy c k t1 t2 s Hk Hproc) as [_ Hseg].
        rewrite Hseg in Hstep. cbn in Hstep. injection Hstep as <-. cbn.
        split; [lia|]. split; [lia|]. by left.
      * destruct (inv_loops s HI) as [(_ & Hl & Hq)|(Ht & _)]; [|congruence].
        destruct (segment_call_idle c k t1 t2 s Hk Hproc Hq) as [_ Hseg].
        rewrite Hseg in Hstep. cbn in Hstep. injection Hstep as <-. cbn.
        split; [lia|]. split; [lia|]. right.
        split; [unfold in_flight; by rewrite Hl|].
        eexists. split; [unfold in_flight; cbn; by rewrite Hl|].
        split; [done|]. right. by exists c, k, t1, t2.
  - destruct (loops s !! i) as [[job|ms]|] eqn:Hi;
      [|unfold step, segment in Hstep; by rewrite Hi in Hstep..].
    destruct (completion i r job s s' HI Hi Hstep)
      as (rs & _ & _ & _ & _ & _ & _ & _ & Hst & Hu & _).
    rewrite Hst. destruct r; cbn; (split; [lia|]); (split; [lia|]); by left.
  - destruct (loops s !! i) as [[job|ms]|] eqn:Hi;
      [unfold step, segment in Hstep; by rewrite Hi in Hstep| |
       unfold step, segment in Hstep; by rewrite Hi in Hstep].
    destruct (segment_timer i ms s HI Hi) as (Hl & Hseg).
    rewrite Hseg in Hstep. injection Hstep as <-.
    destruct (queue s) as [|job rest]; cbn.
    + split; [lia|]. split; [lia|]. by left.
    + split; [lia|]. split; [lia|]. right.
      split; [unfold in_flight; by rewrite Hl|].
      exists job. split; [done|]. split; [done|]. left. by exists i.
  - destruct (step_close s HI) as (s0 & Hs0 & _ & _ & _ & Hst & _ & Hu & _).
    rewrite Hs0 in Hstep. injection Hstep as <-. rewrite Hst.
    split; [lia|]. split; [lia|]. by left.
Qed.

(** C10. At most one activation of [processQueue] exists and at most one
    call of the database is in flight, whatever the keys; [processing] is
    set exactly while the activation exists. A call of the database is
    issued only when none is in flight: by the loop when its timer fires,
    or by [addUserFetchJob] when the loop is idle. After each answer the
    loop waits on its 10 ms timer, with no call in flight. *)
Theorem one_fetch_at_a_time (s : QueueService) :
  reachable s ->
  (length (in_flight s) <= 1)%nat ∧
  (length (loops s) <= 1)%nat ∧
  (processing s = false -> loops s = [] ∧ queue s = []) ∧
  (processing s = true -> ∃ a, loops s = [a]) ∧
  (∀ ev s', step ev s = Some s' -> upstream s' ≠ upstream s ->
     in_flight s = [] ∧
     ∃ j, in_flight s' = [j] ∧ upstream s' = upstream s ++ [userId j] ∧
       ((∃ i, ev = EvTimer i) ∨
        (∃ c k t1 t2, ev = EvCall c k t1 t2 ∧ processing s = false))) ∧
  (∀ i r s', step (EvUpstream i r) s = Some s' ->
     loops s' = [AwaitDelay 10] ∧ in_flight s' = [] ∧ upstream s' = upstream s).
Proof.
  intros Hs. pose proof (reachable_Inv s Hs) as HI.
  assert ((length (loops s) <= 1)%nat) as Hlen.
  { destruct (inv_loops s HI) as [(_ & -> & _)|(_ & a & ->)]; cbn; lia. }
  split; [|split; [done|split; [|split; [|split]]]].
  - unfold in_flight.
    destruct (inv_loops s HI) as [(_ & -> & _)|(_ & a & ->)]; [cbn; lia|].
    destruct a; cbn; lia.
  - intros Hp. destruct (inv_loops s HI) as [(_ & ? & ?)|(? & _)]; [done|congruence].
  - intros Hp. destruct (inv_loops s HI) as [(? & _)|(_ & ?)]; [congruence|done].
  - intros ev s' Hstep Hne.
    destruct (step_effect ev s s' HI Hstep) as (_ & _ & [Heq|Hgrow]); done.
  - intros i r s' Hstep.
    destruct (loops s !! i) as [[job|ms]|] eqn:Hi;
      [|unfold step, segment in Hstep; by rewrite Hi in Hstep..].
    destruct (completion i r job s s' HI Hi Hstep)
      as (rs & _ & _ & _ & _ & _ & _ & _ & _ & Hu & _ & Hl & _).
    unfold in_flight. rewrite Hl. done.
Qed.

Lemma one_fetch_at_a_time_witness :
  reachable (after three_calls) ∧
  (length (in_flight (after three_calls)) <= 1)%nat ∧
  length (queue (after three_calls)) = 1%nat.
Proof.
  assert (reachable (after three_calls)) as Hr.
  { apply (after_reachable three_calls (after three_calls)).
    vm_compute. reflexivity. }
  split; [exact Hr|]. split; [|vm_compute; reflexivity].
  apply (one_fetch_at_a_time (after three_calls) Hr).
Defined.

(** C9. [close] rejects the promise of every job still in the queue with
    the shutdown error, the waiters of those promises observe it, and the
    queue and [pendingRequests] are empty afterwards. *)
Theorem close_rejects_queued (s : QueueService) :
  reachable s ->
  ∃ s', step EvClose s = Some s' ∧
    (∀ j, j ∈ queue s ->
       promises s !! promise j ≠ promises s' !! promise j ∧
       promises s' !! promise j
       = Some (mkPromise (Some (Rejected shutdown_error)) []) ∧
       promises (close s) !! promise j
       = Some (mkPromise (Some (Rejected shutdown_error)) [])) ∧
    (∀ j rs w, j ∈ queue s ->
       promises s !! promise j = Some (mkPromise None rs) -> w ∈ rs ->
       mkObs w (Rejected shutdown_error) None ∈ observed s') ∧
    queue s' = [] ∧ pendingRequests s' = ∅ ∧
    queue (close s) = [] ∧ pendingRequests (close s) = ∅.
Proof.
  intros Hs. pose proof (reachable_Inv s Hs) as HI.
  destruct (step_close s HI) as
    (s' & Hs' & Hq & _ & Hm & _ & _ & _ & _ & Hpc & _ & Hrej & _ & _ & _ & Hobs).
  exists s'. split; [done|]. split; [|split; [done|]].
  - intros j Hj. pose proof (Hrej j Hj) as Hr.
    destruct (inv_live s HI j) as (rs & Hp & _).
    { unfold live. apply elem_of_app. by left. }
    split; [by rewrite Hp, Hr|]. split; [done|]. by rewrite <- Hpc.
  - done.
Qed.

Lemma close_rejects_queued_witness :
  reachable (after three_calls) ∧
  queue (after three_calls) = [mkJob (2, 1002) 2 1002 1] ∧
  promises (close (after three_calls)) !! 1%nat
  = Some (mkPromise (Some (Rejected shutdown_error)) []) ∧
  queue (close (after three_calls)) = [].
Proof.
  assert (reachable (after three_calls)) as Hr.
  { apply (after_reachable three_calls (after three_calls)).
    vm_compute. reflexivity. }
  split; [exact Hr|]. split; [vm_compute; reflexivity|].
  destruct (close_rejects_queued (after three_calls) Hr)
    as (s' & _ & Hrej & _ & _ & _ & Hq & _).
  split; [|exact Hq].
  apply (Hrej (mkJob (2, 1002) 2 1002 1)). vm_compute. by left.
Defined.

(** C8. When the call of the database for a job returns or fails,
    [job.resolve] or [job.reject] only queues the reactions of the
    promise; the key is deleted from [pendingRequests] in the same
    synchronous stretch, so the waiters, which run after it, all observe the
    outcome with no entry registered for their key. A promise that is
    registered is always pending, so no caller is ever handed a settled
    promise, and a call for the key after the completion makes a fresh
    promise and a new fetch. *)
Theorem entry_removed_before_waiters_run (s : QueueService) :
  reachable s ->
  (∀ o, o ∈ observed s -> registered o = None) ∧
  (∀ k p, pendingRequests s !! k = Some p ->
     ∃ rs, promises s !! p = Some (mkPromise None rs)) ∧
  (∀ i r job s',
     loops s !! i = Some (AwaitUpstream job) ->
     step (EvUpstream i r) s = Some s' ->
     ∃ rs,
       promises s !! promise job = Some (mkPromise None rs) ∧
       microtasks (after_upstream job r s) = map (fun w => (w, outcome_of r)) rs ∧
       observed (after_upstream job r s) = observed s ∧
       pendingRequests (after_upstream job r s) !! userId job = None ∧
       observed s' = observed s ++ map (fun w => mkObs w (outcome_of r) None) rs ∧
       promises s' !! promise job = Some (mkPromise (Some (outcome_of r)) []) ∧
       pendingRequests s' !! userId job = None ∧
       ∀ t1 t2,
         let c := addUserFetchJob (userId job) t1 t2 s' in
         c.1 ≠ promise job ∧
         promises c.2 !! c.1 = Some (mkPromise None []) ∧
         fetches (userId job) c.2 = S (fetches (userId job) s')).
Proof.
  intros Hs. pose proof (reachable_Inv s Hs) as HI.
  split; [apply HI|]. split.
  - intros k p Hk. destruct (inv_map s HI k p Hk) as (j & Hj & <- & _).
    destruct (inv_live s HI j Hj) as (rs & Hp & _). eauto.
  - intros i r job s' Hi Hstep.
    destruct (completion i r job s s' HI Hi Hstep)
      as (rs & Hp & Hmt & Hob & Hk0 & Hobs & Hp' & Hk & _).
    exists rs. repeat (split; [done|]).
    intros t1 t2.
    destruct (call_after_completion i r job s s' t1 t2 HI Hi Hstep)
      as (? & ? & _ & _ & ?).
    done.
Qed.

Lemma entry_removed_before_waiters_run_witness :
  let s := after (three_calls ++ [EvUpstream 0 (Returns (Some john))]) in
  reachable s ∧
  observed s
  = [mkObs (mkWaiter 0 1) (Fulfilled (Some john)) None;
     mkObs (mkWaiter 1 1) (Fulfilled (Some john)) None] ∧
  ∀ o, o ∈ observed s -> registered o = None.
Proof.
  cbv zeta.
  assert (reachable (after (three_calls ++ [EvUpstream 0 (Returns (Some john))])))
    as Hr.
  { apply (after_reachable _ (after (three_calls ++
                                      [EvUpstream 0 (Returns (Some john))]))).
    vm_compute. reflexivity. }
  split; [exact Hr|]. split; [vm_compute; reflexivity|].
  apply (entry_removed_before_waiters_run _ Hr).
Defined.



End QueueSpec.

(** ** More on the insertion-ordered map *)
Section JSMapMore.
Context {V : Type}.
Implicit Types (m : list (string * V)) (k : string) (v : V).

Lemma Map_get_set_eq k v m : Map_get k (Map_set k v m) = Some v.
Proof.
  induction m as [|[k' v'] m IH]; cbn.
  - by rewrite String.eqb_refl.
  - destruct (String.eqb k k') eqn:E; cbn; [by rewrite String.eqb_refl|by rewrite E].
Qed.

Lemma Map_get_delete_ne k k' m : k' ≠ k -> Map_get k' (Map_delete k m) = Map_get k' m.
Proof.
  intros Hne. induction m as [|[k0 v0] m IH]; cbn; [done|].
  destruct (String.eqb_spec k k0) as [->|Hk]; cbn.
  - destruct (String.eqb_spec k' k0); [done|done].
  - by rewrite IH.
Qed.

Lemma Map_keys_set k v m :
  Map_keys (Map_set k v m)
  = if Map_has k m then Map_keys m else Map_keys m ++ [k].
Proof.
  unfold Map_has, Map_keys. induction m as [|[k' v'] m IH]; cbn; [done|].
  destruct (String.eqb_spec k k') as [->|Hne]; cbn; [done|].
  rewrite IH. by destruct (Map_get k m).
Qed.

Lemma Map_set_NoDup k v m : NoDup (Map_keys m) -> NoDup (Map_keys (Map_set k v m)).
Proof.
  intros Hnd. rewrite Map_keys_set. destruct (Map_has k m) eqn:E; [done|].
  apply NoDup_app. split; [done|]. split; [|apply NoDup_singleton].
  intros x Hx Hx'. apply list_elem_of_singleton in Hx'. subst x.
  by apply Map_has_false in E.
Qed.

Lemma Map_set_length_le k v m :
  (length (Map_set k v m) <= S (length m))%nat ∧
  (Map_has k m = true -> length (Map_set k v m) = length m) ∧
  (Map_has k m = false -> length (Map_set k v m) = S (length m)).
Proof.
  pose proof (Map_keys_set k v m) as H.
  apply (f_equal length) in H. unfold Map_keys in H. rewrite length_fmap in H.
  destruct (Map_has k m); rewrite ?length_app, length_fmap in H; cbn in H;
    repeat split; intros; try lia; done.
Qed.

Lemma Map_delete_length_le k m : (length (Map_delete k m) <= length m)%nat.
Proof. rewrite Map_delete_length. lia. Qed.

(** All of [ks] removed from the map, one after the other. *)
Lemma Map_delete_not_in k k0 v0 m :
  k ≠ k0 -> Map_delete k ((k0, v0) :: m) = (k0, v0) :: Map_delete k m.
Proof. intros Hne. cbn. by destruct (String.eqb_spec k k0). Qed.
End JSMapMore.

(** ** More on the cache *)
Module CacheMore.
Import Cache.

Ltac run_cache := CacheSpec.run_cache.

(** The map after [get], in its three cases. *)
Lemma get_cache (ttl : Z) (clock : nat -> Z) key (s : LRUCache) :
  let s' := (get ttl clock key s).2 in
  match Map_get key (cache s) with
  | None => cache s' = cache s ∧ size (stats s') = size (stats s)
  | Some item =>
      if ttl <? clock (S (reads s)) - timestamp item
      then cache s' = Map_delete key (cache s) ∧
           size (stats s') = size (stats s) - 1
      else cache s'
           = Map_set key (mkItem (data item) (timestamp item) (clock (S (S (reads s)))))
               (Map_delete key (cache s)) ∧
           size (stats s') = size (stats s)
  end.
Proof.
  run_cache. destruct (Map_get key (cache s)) as [item|]; [|done].
  cbn [reads]. destruct (ttl <? _); cbn [fst snd cache stats size reads].
  - split; [done|lia].
  - by rewrite Map_delete_set.
Qed.

(** The map after [set]: the new entry is written over the map without the
    key, without the first key, or over the map as it is. *)
Lemma set_cache (maxSize : Z) (clock : nat -> Z) key d (s : LRUCache) :
  let s' := (set maxSize clock key d s).2 in
  let item := mkItem d (clock (reads s)) (clock (reads s)) in
  if Map_has key (cache s) then
    cache s' = Map_set key item (Map_delete key (cache s))
  else if maxSize <=? Map_size (cache s) then
    match cache s with
    | (k0, _) :: rest =>
        if String.eqb k0 "" then cache s' = Map_set key item (cache s)
        else cache s' = Map_set key item rest
    | [] => cache s' = Map_set key item []
    end
  else cache s' = Map_set key item (cache s).
Proof.
  run_cache. destruct (Map_has key (cache s)).
  - cbn [fst snd cache]. by destruct (_ || _).
  - destruct (maxSize <=? Map_size (cache s)).
    + destruct (cache s) as [|[k0 v0] rest] eqn:Hc; cbn [Map_first_key truthy].
      * cbn [fst snd cache]. rewrite ?Hc. by destruct (_ || _).
      * destruct (String.eqb k0 ""); cbn [negb fst snd cache].
        -- rewrite ?Hc. by destruct (_ || _).
        -- rewrite ?Hc. cbn [Map_delete]. rewrite ?String.eqb_refl. by destruct (_ || _).
    + cbn [fst snd cache]. by destruct (_ || _).
Qed.

(** The entries removed by [forEach] in the sweep. *)
Lemma forEach_evict_cache (keys : list string) (s : LRUCache) :
  let s' := (forEach keys (fun key =>
               bind (cache_delete key) (fun _ => upd_stats (add_size (-1)))) s).2 in
  cache s' = foldl (fun m k => Map_delete k m) (cache s) keys ∧
  size (stats s') = size (stats s) - Z.of_nat (length keys).
Proof.
  revert s. induction keys as [|k keys IH]; intros s.
  - cbn. split; [done|lia].
  - change (forEach (k :: keys)
              (fun key => bind (cache_delete key) (fun _ => upd_stats (add_size (-1)))) s)
      with (forEach keys
              (fun key => bind (cache_delete key) (fun _ => upd_stats (add_size (-1))))
              (mkCache (Map_delete k (cache s)) (add_size (-1) (stats s))
                       (cleanupInterval s) (reads s))).
    specialize (IH (mkCache (Map_delete k (cache s)) (add_size (-1) (stats s))
                            (cleanupInterval s) (reads s))).
    cbv zeta in IH. cbv zeta. destruct IH as [-> ->].
    cbn [foldl cache stats size add_size length].
    split; [done|lia].
Qed.

Lemma delete_all_cons (keys : list string) k0 (v0 : CacheItem) m :
  k0 ∉ keys ->
  foldl (fun m k => Map_delete k m) ((k0, v0) :: m) keys
  = (k0, v0) :: foldl (fun m k => Map_delete k m) m keys.
Proof.
  revert m. induction keys as [|k keys IH]; intros m Hk; [done|].
  apply not_elem_of_cons in Hk as [Hne Hk]. cbn [foldl].
  rewrite Map_delete_not_in by done. by apply IH.
Qed.

Lemma delete_all_filter (P : string * CacheItem -> Prop) `{∀ e, Decision (P e)}
    (m : list (string * CacheItem)) :
  NoDup (Map_keys m) ->
  foldl (fun m k => Map_delete k m) m (Map_keys (filter P m))
  = filter (fun e => ¬ P e) m.
Proof.
  unfold Map_keys. induction m as [|[k v] m IH]; [done|].
  rewrite fmap_cons. intros Hnd. apply NoDup_cons in Hnd as [Hk Hnd].
  destruct (decide (P (k, v))) as [HP|HP].
  - rewrite (filter_cons_True P) by done.
    rewrite (filter_cons_False (fun e => ¬ P e)) by (intros Hn; by apply Hn).
    cbn [fmap list_fmap foldl Map_delete fst]. rewrite String.eqb_refl. by apply IH.
  - rewrite (filter_cons_False P) by done.
    rewrite (filter_cons_True (fun e => ¬ P e)) by done.
    rewrite delete_all_cons; [by rewrite IH|].
    intros Hin. apply Hk. apply list_elem_of_fmap in Hin as ([k' v'] & -> & Hin).
    apply list_elem_of_filter in Hin as [_ Hin].
    apply list_elem_of_fmap. by exists (k', v').
Qed.

Lemma run_op_NoDup (maxSize ttl : Z) (clock : nat -> Z) (o : Op) (s : LRUCache) :
  NoDup (Map_keys (cache s)) ->
  NoDup (Map_keys (cache (run_op maxSize ttl clock o s))).
Proof.
  intros Hnd. destruct o as [key|key d|key| | | |]; cbn [run_op].
  - pose proof (get_cache ttl clock key s) as H. cbv zeta in H.
    destruct (Map_get key (cache s)) as [item|]; [|by destruct H as [-> _]].
    destruct (ttl <? _); destruct H as [-> _];
      auto using Map_delete_NoDup, Map_set_NoDup.
  - pose proof (set_cache maxSize clock key d s) as H. cbv zeta in H.
    destruct (Map_has key (cache s)).
    { rewrite H. auto using Map_delete_NoDup, Map_set_NoDup. }
    destruct (maxSize <=? _); [|rewrite H; by apply Map_set_NoDup].
    destruct (cache s) as [|[k0 v0] rest] eqn:Hc.
    { rewrite H. apply NoDup_singleton. }
    destruct (String.eqb k0 ""); rewrite H; apply Map_set_NoDup; [done|].
    unfold Map_keys in Hnd. rewrite fmap_cons in Hnd. by apply NoDup_cons in Hnd as [_ ?].
  - run_cache. destruct (Map_has key (cache s)); cbn; by apply Map_delete_NoDup.
  - run_cache. apply NoDup_nil_2.
  - run_cache. apply NoDup_nil_2.
  - done.
  - rewrite CacheSpec.cleanupExpiredEntries_eq.
    match goal with |- context [forEach ?ks ?f ?s0] =>
      pose proof (forEach_evict_cache ks s0) as [-> _] end.
    cbn [cache]. generalize (Map_keys (filter (fun e : string * CacheItem =>
                               ttl < clock (reads s) - timestamp e.2) (cache s))).
    intros ks. revert Hnd. generalize (cache s). induction ks as [|k ks IH]; intros m Hm.
    + done.
    + cbn [foldl]. apply IH. by apply Map_delete_NoDup.
Qed.

(** X1. The keys stored in the cache are pairwise distinct after any
    sequence of operations on a fresh cache. *)
Theorem keys_stay_distinct (maxSize ttl : Z) (clock : nat -> Z) (os : list Op) :
  NoDup (Map_keys (cache (run_ops maxSize ttl clock os new))).
Proof.
  unfold run_ops.
  assert (NoDup (Map_keys (cache new))) as H0 by apply NoDup_nil_2.
  revert H0. generalize new. induction os as [|o os IH]; intros s Hs; [done|].
  cbn [foldl]. apply IH. by apply run_op_NoDup.
Qed.

(** X2. A value written by [set] is what the next [get] of the key returns,
    unless more than the time-to-live has gone by between the reading of the
    clock by [set] and the one by the expiry test of [get]. *)
Theorem set_then_get (maxSize ttl : Z) (clock : nat -> Z) key d (s : LRUCache) :
  (get ttl clock key (set maxSize clock key d s).2).1
  = if ttl <? clock (S (S (reads s))) - clock (reads s) then None else Some d.
Proof.
  assert (∃ c, cache (set maxSize clock key d s).2
               = Map_set key (mkItem d (clock (reads s)) (clock (reads s))) c) as [c Hc].
  { pose proof (set_cache maxSize clock key d s) as H. cbv zeta in H.
    destruct (Map_has key (cache s)); [eauto|].
    destruct (maxSize <=? _); [|eauto].
    destruct (cache s) as [|[k0 v0] rest]; [eauto|].
    destruct (String.eqb k0 ""); eauto. }
  assert (reads (set maxSize clock key d s).2 = S (reads s)) as Hr.
  { run_cache. destruct (Map_has key (cache s)); [|destruct (maxSize <=? _);
      [destruct (truthy _); [destruct (Map_first_key _)|]|]];
      cbn [fst snd cache]; by destruct (_ || _). }
  generalize dependent (set maxSize clock key d s).2. intros s1 Hc Hr.
  run_cache. rewrite Hc, Map_get_set_eq. cbn [reads timestamp]. rewrite Hr.
  by destruct (ttl <? _).
Qed.

(** X3. [delete] answers whether the key was stored; afterwards the key is
    absent, every other key holds what it held, the size counter went down
    by one exactly when the key was stored, and the counters of hits and
    misses did not move. *)
Theorem delete_semantics key (s : LRUCache) :
  NoDup (Map_keys (cache s)) ->
  let r := delete key s in
  r.1 = Map_has key (cache s) ∧
  Map_get key (cache r.2) = None ∧
  (∀ k, k ≠ key -> Map_get k (cache r.2) = Map_get k (cache s)) ∧
  size (stats r.2) = size (stats s) - (if Map_has key (cache s) then 1 else 0) ∧
  hits (stats r.2) = hits (stats s) ∧ misses (stats r.2) = misses (stats s) ∧
  (delete key r.2).1 = false.
Proof.
  intros Hnd. run_cache.
  assert (Map_has key (Map_delete key (cache s)) = false) as Hgone.
  { unfold Map_has. by rewrite Map_get_delete. }
  destruct (Map_has key (cache s)); cbn [fst snd cache stats size hits misses];
    rewrite ?Hgone; cbn [fst snd];
    (split; [done|]); (split; [by apply Map_get_delete|]);
    (split; [intros k Hk; by apply Map_get_delete_ne|]);
    (split; [lia|]); done.
Qed.

Lemma delete_semantics_witness :
  let s := run_ops 100 60000 ticking [OpSet "user:1" john; OpSet "user:2" jane] new in
  NoDup (Map_keys (cache s)) ∧
  (delete "user:1" s).1 = true ∧
  Map_get "user:1" (cache (delete "user:1" s).2) = None.
Proof.
  cbv zeta.
  assert (NoDup (Map_keys (cache (run_ops 100 60000 ticking
                                    [OpSet "user:1" john; OpSet "user:2" jane] new))))
    as Hnd.
  { vm_compute. apply NoDup_cons. split; [|apply NoDup_singleton].
    intros H. apply list_elem_of_singleton in H. discriminate. }
  split; [exact Hnd|].
  destruct (delete_semantics "user:1" _ Hnd) as (H1 & H2 & _).
  split; [rewrite H1; vm_compute; reflexivity|exact H2].
Defined.

(** X4. The periodic sweep removes exactly the entries older than the
    time-to-live, keeps the others in their order, lowers the size counter by
    the number of entries removed and leaves the counters of hits, misses
    and requests alone. *)
Theorem sweep_removes_expired (ttl : Z) (clock : nat -> Z) (s : LRUCache) :
  NoDup (Map_keys (cache s)) ->
  let now := clock (reads s) in
  let s' := (cleanupExpiredEntries ttl clock s).2 in
  cache s' = filter (fun e => ¬ (ttl < now - timestamp e.2)) (cache s) ∧
  size (stats s')
  = size (stats s)
    - Z.of_nat (length (filter (fun e => ttl < now - timestamp e.2) (cache s))) ∧
  hits (stats s') = hits (stats s) ∧ misses (stats s') = misses (stats s) ∧
  totalRequests (stats s') = totalRequests (stats s).
Proof.
  intros Hnd now s'. subst now s'.
  rewrite CacheSpec.cleanupExpiredEntries_eq.
  match goal with |- context [forEach ?ks ?f ?s0] =>
    pose proof (forEach_evict_cache ks s0) as [Hc Hs];
    pose proof (CacheSpec.forEach_evict_stats ks s0) as (Hh & Hm & Ht & _) end.
  cbv zeta in Hh, Hm, Ht. cbn [cache stats] in *.
  rewrite Hc, Hs, Hh, Hm, Ht.
  rewrite (delete_all_filter (fun e => ttl < clock (reads s) - timestamp e.2)) by done.
  unfold Map_keys. rewrite length_fmap. done.
Qed.

Lemma sweep_removes_expired_witness :
  let s := run_ops 100 60000 ticking [OpSet "user:1" john; OpSet "user:2" jane] new in
  NoDup (Map_keys (cache s)) ∧
  Map_keys (cache (cleanupExpiredEntries 1 ticking s).2) = ["user:2"].
Proof.
  cbv zeta.
  assert (NoDup (Map_keys (cache (run_ops 100 60000 ticking
                                    [OpSet "user:1" john; OpSet "user:2" jane] new))))
    as Hnd.
  { vm_compute. apply NoDup_cons. split; [|apply NoDup_singleton].
    intros H. apply list_elem_of_singleton in H. discriminate. }
  split; [exact Hnd|].
  destruct (sweep_removes_expired 1 ticking _ Hnd) as (H1 & _).
  rewrite H1. vm_compute. reflexivity.
Defined.

Lemma Map_keys_set_subseteq key (item : CacheItem) (m : list (string * CacheItem)) :
  ∀ k, k ∈ Map_keys (Map_set key item m) -> k = key ∨ k ∈ Map_keys m.
Proof.
  intros k. rewrite Map_keys_set. destruct (Map_has key m); [by right|].
  rewrite elem_of_app, list_elem_of_singleton. tauto.
Qed.

Lemma delete_all_bound (ks : list string) (m : list (string * CacheItem)) :
  (length (foldl (fun m k => Map_delete k m) m ks) <= length m)%nat ∧
  Map_keys (foldl (fun m k => Map_delete k m) m ks) ⊆ Map_keys m.
Proof.
  revert m. induction ks as [|k ks IH]; intros m; [done|]. cbn [foldl].
  destruct (IH (Map_delete k m)) as [Hl Hk].
  pose proof (Map_delete_length_le k m).
  split; [lia|]. etrans; [exact Hk|apply Map_keys_delete_subseteq].
Qed.

(** The capacity bound and the absence of the empty key, kept by every
    operation that does not write the empty key. *)
Lemma run_op_capacity (maxSize ttl : Z) (clock : nat -> Z) (o : Op) (s : LRUCache) :
  1 <= maxSize ->
  (∀ key d, o = OpSet key d -> key ≠ "") ->
  Map_size (cache s) <= maxSize ∧ "" ∉ Map_keys (cache s) ->
  Map_size (cache (run_op maxSize ttl clock o s)) <= maxSize ∧
  "" ∉ Map_keys (cache (run_op maxSize ttl clock o s)).
Proof.
  unfold Map_size. intros Hmax Hkey [Hsz Hne].
  destruct o as [key|key d|key| | | |]; cbn [run_op].
  - pose proof (get_cache ttl clock key s) as H. cbv zeta in H.
    destruct (Map_get key (cache s)) as [item|] eqn:Hget; [|by destruct H as [-> _]].
    pose proof (Map_delete_length key (cache s)) as Hdl.
    unfold Map_has in Hdl. rewrite Hget in Hdl.
    assert (key ∈ Map_keys (cache s)) as Hin.
    { destruct (decide (key ∈ Map_keys (cache s))) as [|Hn]; [done|].
      apply Map_get_None in Hn. congruence. }
    assert ((1 <= length (cache s))%nat) as Hpos.
    { destruct (cache s); [by apply elem_of_nil in Hin|cbn; lia]. }
    destruct (ttl <? _); destruct H as [-> _].
    + split; [lia|]. intros Hin'. by apply Map_keys_delete_subseteq in Hin'.
    + destruct (Map_set_length_le key
                  (mkItem (data item) (timestamp item) (clock (S (S (reads s)))))
                  (Map_delete key (cache s))) as (Hle & _).
      split; [lia|]. intros Hin'. apply Map_keys_set_subseteq in Hin' as [<-|Hin'];
        [done|]. by apply Map_keys_delete_subseteq in Hin'.
  - specialize (Hkey key d eq_refl).
    pose proof (set_cache maxSize clock key d s) as H. cbv zeta in H.
    unfold Map_size in H.
    set (item := mkItem d (clock (reads s)) (clock (reads s))) in *.
    destruct (Map_has key (cache s)) eqn:Hhas.
    { cbn iota in H. rewrite H. destruct (Map_set_length_le key item (Map_delete key (cache s)))
        as (Hle & _).
      pose proof (Map_delete_length key (cache s)) as Hdl. rewrite Hhas in Hdl.
      assert ((1 <= length (cache s))%nat) as Hpos.
      { unfold Map_has in Hhas. destruct (cache s); [done|cbn; lia]. }
      split; [lia|]. intros Hin'. apply Map_keys_set_subseteq in Hin' as [?|Hin'];
        [done|]. by apply Map_keys_delete_subseteq in Hin'. }
    destruct (Z.leb_spec maxSize (Z.of_nat (length (cache s)))) as [Hfull|Hroom].
    + destruct (cache s) as [|[k0 v0] rest] eqn:Hc; [cbn in Hfull; lia|].
      destruct (String.eqb_spec k0 "") as [->|Hk0].
      { exfalso. apply Hne. cbn. by left. }
      rewrite H. destruct (Map_set_length_le key item rest) as (Hle & _).
      cbn [length] in Hsz. split; [lia|].
      intros Hin'. apply Map_keys_set_subseteq in Hin' as [?|Hin']; [done|].
      apply Hne. cbn. by right.
    + rewrite H. destruct (Map_set_length_le key item (cache s)) as (Hle & _).
      split; [lia|]. intros Hin'. by apply Map_keys_set_subseteq in Hin' as [?|Hin'].
  - run_cache. pose proof (Map_delete_length_le key (cache s)).
    destruct (Map_has key (cache s)); cbn; (split; [lia|]);
      intros Hin'; by apply Map_keys_delete_subseteq in Hin'.
  - run_cache. split; [change (0 <= maxSize); lia|apply not_elem_of_nil].
  - run_cache. split; [change (0 <= maxSize); lia|apply not_elem_of_nil].
  - done.
  - rewrite CacheSpec.cleanupExpiredEntries_eq.
    match goal with |- context [forEach ?ks ?f ?s0] =>
      pose proof (forEach_evict_cache ks s0) as [-> _];
      destruct (delete_all_bound ks (cache s0)) as [Hl Hk] end.
    cbn [cache] in *. split; [lia|]. intros Hin'. by apply Hk in Hin'.
Qed.

(** X5. With a capacity of at least one, and as long as the empty string is
    never written as a key, the number of entries stored never exceeds
    [maxSize], whatever operations are performed on a fresh cache. *)
Theorem capacity_bound (maxSize ttl : Z) (clock : nat -> Z) (os : list Op) :
  1 <= maxSize ->
  (∀ key d, OpSet key d ∈ os -> key ≠ "") ->
  Map_size (cache (run_ops maxSize ttl clock os new)) <= maxSize.
Proof.
  intros Hmax Hkeys. unfold run_ops.
  assert (Map_size (cache new) <= maxSize ∧ "" ∉ Map_keys (cache new)) as H0.
  { split; [change (0 <= maxSize); lia|apply not_elem_of_nil]. }
  revert H0 Hkeys. generalize new. induction os as [|o os IH]; intros s Hs Hkeys.
  - apply Hs.
  - cbn [foldl]. apply IH.
    + apply run_op_capacity; [done| |done].
      intros key d ->. apply (Hkeys key d). by left.
    + intros key d Hin. apply (Hkeys key d). by right.
Qed.

Lemma capacity_bound_witness :
  1 <= 2 ∧
  Map_size (cache (run_ops 2 60000 ticking
                     [OpSet "user:1" john; OpSet "user:2" jane; OpSet "user:3" alice]
                     new)) <= 2.
Proof.
  split; [lia|]. apply capacity_bound; [lia|].
  intros key d Hin.
  repeat (apply elem_of_cons in Hin as [Heq|Hin]; [by injection Heq as -> _|]).
  by apply elem_of_nil in Hin.
Defined.

(** X6. Every [get] is counted once as a request and once as a hit or a
    miss, and nothing else touches these counters: on a cache that started
    fresh, [totalRequests] is the sum of [hits] and [misses]. *)
Theorem requests_are_hits_plus_misses (maxSize ttl : Z) (clock : nat -> Z)
    (os : list Op) :
  let st := stats (run_ops maxSize ttl clock os new) in
  totalRequests st = hits st + misses st.
Proof.
  cbv zeta. unfold run_ops.
  assert (totalRequests (stats new) = hits (stats new) + misses (stats new)) as H0
    by done.
  revert H0. generalize new. induction os as [|o os IH]; intros s Hs; [done|].
  cbn [foldl]. apply IH.
  destruct o as [key|key d|key| | | |]; cbn [run_op].
  - run_cache. destruct (Map_get key (cache s)); cbn [reads];
      [destruct (ttl <? _)|];
      cbn [fst snd stats hits misses totalRequests]; lia.
  - run_cache.
    destruct (Map_has key (cache s)); [|destruct (maxSize <=? _);
      [destruct (truthy _); [destruct (Map_first_key _)|]|]];
      cbn [fst snd cache stats]; destruct (_ || _);
      cbn [snd stats hits misses totalRequests]; lia.
  - run_cache. destruct (Map_has key (cache s)); cbn; lia.
  - run_cache. lia.
  - run_cache. lia.
  - done.
  - rewrite CacheSpec.cleanupExpiredEntries_eq.
    match goal with |- context [forEach ?ks ?f ?s0] =>
      pose proof (CacheSpec.forEach_evict_stats ks s0) as (Hh & Hm & Ht & _) end.
    cbv zeta in Hh, Hm, Ht. cbn [stats] in *. lia.
Qed.

(** X7. After [clear] the map is empty and the size counter is 0, while the
    counters of hits and misses are kept; the next [get], of any key, is a
    miss. *)
Theorem clear_then_get (ttl : Z) (clock : nat -> Z) key (s : LRUCache) :
  let s' := (clear s).2 in
  cache s' = [] ∧ size (stats s') = 0 ∧
  hits (stats s') = hits (stats s) ∧ misses (stats s') = misses (stats s) ∧
  (get ttl clock key s').1 = None ∧
  misses (stats (get ttl clock key s').2) = misses (stats s) + 1.
Proof. run_cache. cbn [Map_get]. done. Qed.
End CacheMore.

(** ** More on the rate limiter *)
Module RateLimiterMore.
Import RateLimiter.

(** [checkLimit] in one piece: the result and the new entry of the client,
    from the two pruned sequences. *)
Lemma checkLimit_eq (Ns Ws Nb Wb : Z) (c : string) (now : Z)
    (m : gmap string RateLimitEntry) :
  let e := default (mkEntry [] []) (m !! c) in
  let rq := prune now Ws (requests e) in
  let bq := prune now Wb (burstRequests e) in
  checkLimit Ns Ws Nb Wb c now m
  = if Nb <=? Z.of_nat (length bq) then
      (mkResult false 0 (plus (Math_min bq) Wb), <[c := mkEntry rq bq]> m)
    else if Ns <=? Z.of_nat (length rq) then
      (mkResult false 0 (plus (Math_min rq) Ws), <[c := mkEntry rq bq]> m)
    else
      (mkResult true
         (Z.min (Ns - Z.of_nat (length (rq ++ [now])))
                (Nb - Z.of_nat (length (bq ++ [now]))))
         (Num (now + Ws)),
       <[c := mkEntry (rq ++ [now]) (bq ++ [now])]> m).
Proof.
  intros e rq bq. subst e rq bq. unfold checkLimit. cbv zeta.
  destruct (m !! c) as [e|] eqn:Hc.
  - rewrite Hc. cbn [default requests burstRequests].
    destruct (Nb <=? _); [done|]. destruct (Ns <=? _); [done|].
    by rewrite insert_insert_eq.
  - rewrite lookup_insert_eq. cbn [default requests burstRequests].
    rewrite insert_insert_eq.
    destruct (Nb <=? _); [done|]. destruct (Ns <=? _); [done|].
    by rewrite insert_insert_eq.
Qed.

Lemma prune_length (now w : Z) (l : list Z) : (length (prune now w l) <= length l)%nat.
Proof. apply length_filter. Qed.


(** X8. The budget left that [checkLimit] reports is never negative: it is 0
    on a denial and, on an admission, below both budgets. *)
Theorem remaining_bounds (Ns Ws Nb Wb : Z) (c : string) (now : Z)
    (m : gmap string RateLimitEntry) :
  let res := (checkLimit Ns Ws Nb Wb c now m).1 in
  0 <= remaining res ∧
  (allowed res = false -> remaining res = 0) ∧
  (allowed res = true -> remaining res < Ns ∧ remaining res < Nb).
Proof.
  cbv zeta. rewrite checkLimit_eq. cbv zeta.
  destruct (Z.leb_spec Nb (Z.of_nat (length (prune now Wb
              (burstRequests (default (mkEntry [] []) (m !! c))))))) as [Hb|Hb];
    [cbn; repeat split; done || lia|].
  destruct (Z.leb_spec Ns (Z.of_nat (length (prune now Ws
              (requests (default (mkEntry [] []) (m !! c))))))) as [Hs|Hs];
    [cbn; repeat split; done || lia|].
  cbn [fst allowed remaining]. rewrite !length_app. cbn [length].
  repeat split; try done; lia.
Qed.

(** X9. On a denial with budgets of at least one, the reset time is a
    timestamp strictly after [now]: a client told to wait is told to wait a
    positive time. *)
Theorem denial_resets_in_the_future (Ns Ws Nb Wb : Z) (c : string) (now : Z)
    (m : gmap string RateLimitEntry) :
  0 < Ns -> 0 < Nb ->
  let res := (checkLimit Ns Ws Nb Wb c now m).1 in
  allowed res = false ->
  ∃ t, resetTime res = Num t ∧ now < t.
Proof.
  intros HNs HNb. cbv zeta. rewrite checkLimit_eq. cbv zeta.
  set (bq := prune now Wb (burstRequests (default (mkEntry [] []) (m !! c)))).
  set (rq := prune now Ws (requests (default (mkEntry [] []) (m !! c)))).
  assert (∀ w l, prune now w l ≠ [] ->
            ∃ t, plus (Math_min (prune now w l)) w = Num t ∧ now < t) as Hreset.
  { intros w l Hne.
    destruct (RateLimiterSpec.Math_min_oldest _ Hne) as (x & -> & Hin & _).
    exists (x + w). split; [done|].
    apply list_elem_of_filter in Hin as [Hx _]. lia. }
  destruct (Z.leb_spec Nb (Z.of_nat (length bq))) as [Hb|Hb].
  { intros _. cbn [fst resetTime]. apply Hreset. intros E. subst bq.
    rewrite E in Hb. cbn in Hb. lia. }
  destruct (Z.leb_spec Ns (Z.of_nat (length rq))) as [Hs|Hs].
  { intros _. cbn [fst resetTime]. apply Hreset. intros E. subst rq.
    rewrite E in Hs. cbn in Hs. lia. }
  cbn. discriminate.
Qed.

Lemma denial_resets_in_the_future_witness :
  let clients := (checkLimit_at 10 60000 5 10000 "::1"
                    [1000; 2000; 3000; 4000; 5000] ∅).2 in
  let res := (checkLimit 10 60000 5 10000 "::1" 6000 clients).1 in
  allowed res = false ∧ ∃ t, resetTime res = Num t ∧ 6000 < t.
Proof.
  cbv zeta. split; [vm_compute; reflexivity|].
  apply (denial_resets_in_the_future 10 60000 5 10000 "::1" 6000); [lia|lia|].
  vm_compute. reflexivity.
Defined.

(** After a check, the entry of the client is one of two. *)
Lemma checkLimit_entry (Ns Ws Nb Wb : Z) (c : string) (now : Z)
    (m : gmap string RateLimitEntry) :
  let e := default (mkEntry [] []) (m !! c) in
  let rq := prune now Ws (requests e) in
  let bq := prune now Wb (burstRequests e) in
  let m' := (checkLimit Ns Ws Nb Wb c now m).2 in
  (∀ c', c' ≠ c -> m' !! c' = m !! c') ∧
  (m' !! c = Some (mkEntry rq bq) ∨
   (m' !! c = Some (mkEntry (rq ++ [now]) (bq ++ [now])) ∧
    Z.of_nat (length rq) < Ns ∧ Z.of_nat (length bq) < Nb)).
Proof.
  cbv zeta. rewrite checkLimit_eq. cbv zeta.
  set (bq := prune now Wb (burstRequests (default (mkEntry [] []) (m !! c)))).
  set (rq := prune now Ws (requests (default (mkEntry [] []) (m !! c)))).
  destruct (Z.leb_spec Nb (Z.of_nat (length bq))) as [Hb|Hb];
    [|destruct (Z.leb_spec Ns (Z.of_nat (length rq))) as [Hs|Hs]];
    cbn [snd]; (split; [intros c' Hc'; by rewrite lookup_insert_ne|]);
    rewrite lookup_insert_eq; [by left|by left|by right].
Qed.

(** X10. However many checks are made, for whatever clients and times,
    starting from no client, no client ever has more timestamps recorded
    than its budgets: the memory kept per client is bounded. *)
Theorem sequences_stay_within_budget (Ns Ws Nb Wb : Z) (cs : list (string * Z)) :
  ∀ c e, Runs.checks Ns Ws Nb Wb cs ∅ !! c = Some e ->
    Z.of_nat (length (requests e)) <= Z.max 0 Ns ∧
    Z.of_nat (length (burstRequests e)) <= Z.max 0 Nb.
Proof.
  unfold Runs.checks.
  assert (∀ c e, (∅ : gmap string RateLimitEntry) !! c = Some e ->
            Z.of_nat (length (requests e)) <= Z.max 0 Ns ∧
            Z.of_nat (length (burstRequests e)) <= Z.max 0 Nb) as H0.
  { intros c e H. by rewrite lookup_empty in H. }
  revert H0. generalize (∅ : gmap string RateLimitEntry).
  induction cs as [|[c0 now] cs IH]; intros m Hm; [done|].
  cbn [foldl fst snd]. apply IH. intros c e Hc.
  destruct (checkLimit_entry Ns Ws Nb Wb c0 now m) as [Hother Hself].
  cbv zeta in Hother, Hself.
  destruct (decide (c = c0)) as [->|Hne].
  - assert (Z.of_nat (length (requests (default (mkEntry [] []) (m !! c0))))
            <= Z.max 0 Ns ∧
            Z.of_nat (length (burstRequests (default (mkEntry [] []) (m !! c0))))
            <= Z.max 0 Nb) as [Hr Hb].
    { destruct (m !! c0) as [e0|] eqn:E; [by apply (Hm c0)|cbn; lia]. }
    pose proof (prune_length now Ws (requests (default (mkEntry [] []) (m !! c0)))).
    pose proof (prune_length now Wb (burstRequests (default (mkEntry [] []) (m !! c0)))).
    destruct Hself as [Hself|(Hself & Hlr & Hlb)]; rewrite Hself in Hc;
      injection Hc as <-; cbn [requests burstRequests];
      rewrite ?length_app; cbn [length]; lia.
  - rewrite Hother in Hc by done. by apply (Hm c).
Qed.

Lemma sequences_stay_within_budget_witness :
  let m := Runs.checks 10 60000 5 10000
             [("::1", 1000); ("::1", 2000); ("::2", 2500); ("::1", 3000)] ∅ in
  m !! "::1" = Some (mkEntry [1000; 2000; 3000] [1000; 2000; 3000]) ∧
  Z.of_nat (length [1000; 2000; 3000]) <= Z.max 0 10.
Proof.
  cbv zeta.
  assert (Runs.checks 10 60000 5 10000
            [("::1", 1000); ("::1", 2000); ("::2", 2500); ("::1", 3000)] ∅ !! "::1"
          = Some (mkEntry [1000; 2000; 3000] [1000; 2000; 3000])) as H
    by (vm_compute; reflexivity).
  split; [exact H|].
  apply (sequences_stay_within_budget 10 60000 5 10000 _ _ _ H).
Defined.

Lemma cleanup_entry (Ws Wb : Z) (now : Z) (c : string)
    (m : gmap string RateLimitEntry) :
  cleanup Ws Wb now m !! c
  = match m !! c with
    | Some e =>
        let e' := mkEntry (prune now Ws (requests e)) (prune now Wb (burstRequests e)) in
        if decide (requests e' = [] ∧ burstRequests e' = []) then None else Some e'
    | None => None
    end.
Proof.
  unfold cleanup. rewrite map_lookup_filter, lookup_fmap.
  destruct (m !! c) as [e|]; cbn; [|done].
  case_guard as Hg; cbn in Hg; case_decide; tauto || done.
Qed.

(** X11. The sweep keeps exactly the clients that have a timestamp inside one
    of the two windows, with their sequences pruned: a client is dropped when
    nothing of it survives, and a client that was not there is not added. *)
Theorem cleanup_lookup (Ws Wb : Z) (now : Z) (c : string)
    (m : gmap string RateLimitEntry) :
  (∀ e, m !! c = Some e ->
     let e' := mkEntry (prune now Ws (requests e)) (prune now Wb (burstRequests e)) in
     (requests e' = [] ∧ burstRequests e' = [] -> cleanup Ws Wb now m !! c = None) ∧
     (¬ (requests e' = [] ∧ burstRequests e' = []) ->
      cleanup Ws Wb now m !! c = Some e')) ∧
  (m !! c = None -> cleanup Ws Wb now m !! c = None).
Proof.
  rewrite cleanup_entry. split.
  - intros e ->. cbv zeta. case_decide; split; intros; tauto || done.
  - by intros ->.
Qed.



(** X13. Every check, admitted or denied, leaves the client registered, so
    the number of clients that [getStats] reports goes up by one for a
    client not seen since the last sweep and stays the same otherwise. *)
Theorem check_registers_client (Ns Ws Nb Wb : Z) (c : string) (now : Z)
    (m : gmap string RateLimitEntry) :
  let m' := (checkLimit Ns Ws Nb Wb c now m).2 in
  is_Some (m' !! c) ∧
  totalClients (getStats Ns Ws Nb Wb m')
  = totalClients (getStats Ns Ws Nb Wb m)
    + (if decide (is_Some (m !! c)) then 0 else 1).
Proof.
  cbv zeta. rewrite checkLimit_eq. cbv zeta.
  assert (∀ e, Z.of_nat (size (<[c := e]> m))
               = Z.of_nat (size m) + (if decide (is_Some (m !! c)) then 0 else 1))
    as Hsize.
  { intros e. case_decide as Hd.
    - rewrite map_size_insert_Some by done. lia.
    - rewrite map_size_insert_None; [lia|]. by apply eq_None_not_Some. }
  destruct (Nb <=? _); [|destruct (Ns <=? _)]; cbn [snd getStats totalClients];
    rewrite lookup_insert_eq, Hsize; split; eauto.
Qed.
End RateLimiterMore.

(** ** The mock database *)
Module DatabaseSpec.
Import Database.

Lemma wf_new : wf new.
Proof.
  intros k u. unfold new, mockUsers. cbn [users nextId].
  intros Hk.
  destruct (decide (k = 1)) as [->|?];
    [rewrite lookup_insert_eq in Hk; injection Hk as <-; cbn; lia|].
  rewrite lookup_insert_ne in Hk by done.
  destruct (decide (k = 2)) as [->|?];
    [rewrite lookup_insert_eq in Hk; injection Hk as <-; cbn; lia|].
  rewrite lookup_insert_ne in Hk by done.
  destruct (decide (k = 3)) as [->|?];
    [rewrite lookup_insert_eq in Hk; injection Hk as <-; cbn; lia|].
  rewrite lookup_insert_ne in Hk by done. by rewrite lookup_empty in Hk.
Qed.

Lemma wf_createUser userName userEmail (db : UserDatabase) :
  wf db -> wf (createUser userName userEmail db).2.
Proof.
  intros Hwf k u. cbn. rewrite lookup_insert. case_decide as Hk.
  - intros H. injection H as <-. cbn. lia.
  - intros H. destruct (Hwf k u H). split; [done|lia].
Qed.

Lemma wf_createUsers rows (db : UserDatabase) :
  wf db -> wf (createUsers rows db).2.
Proof.
  revert db. induction rows as [|row rows IH]; intros db Hwf; [done|].
  cbn [createUsers].
  destruct (createUser row.1 row.2 db) as [u db1] eqn:E1.
  destruct (createUsers rows db1) as [us db2] eqn:E2. cbn.
  replace db2 with (createUsers rows db1).2 by (by rewrite E2).
  apply IH. replace db1 with (createUser row.1 row.2 db).2 by (by rewrite E1).
  by apply wf_createUser.
Qed.

(** X14. A user that [createUser] returns can be read back by
    [getUserById] under the id it was given, with the name and email that
    were passed; every other id reads as before. *)
Theorem create_then_get userName userEmail (db : UserDatabase) :
  let r := createUser userName userEmail db in
  name r.1 = userName ∧ email r.1 = userEmail ∧ id r.1 = nextId db ∧
  getUserById (id r.1) r.2 = Some r.1 ∧
  (∀ k, k ≠ id r.1 -> getUserById k r.2 = getUserById k db).
Proof.
  cbn. unfold getUserById. cbn. rewrite lookup_insert_eq.
  repeat split; try done. intros k Hk. by rewrite lookup_insert_ne.
Qed.

(** X15. Starting from the mock data, however many users are created, a
    creation never takes the id of a stored user, so it overwrites nobody:
    every user stored before is still read back unchanged, and every stored
    user is found under its own id. *)
Theorem create_never_overwrites rows userName userEmail :
  let db := (createUsers rows new).2 in
  let r := createUser userName userEmail db in
  getUserById (id r.1) db = None ∧
  (∀ k u, getUserById k db = Some u -> getUserById k r.2 = Some u ∧ id u = k).
Proof.
  cbv zeta. pose proof (wf_createUsers rows new wf_new) as Hwf.
  generalize dependent (createUsers rows new).2. intros db Hwf.
  unfold getUserById. cbn. split.
  - destruct (users db !! nextId db) as [u|] eqn:E; [|done].
    destruct (Hwf _ _ E). lia.
  - intros k u Hk. destruct (users db !! k) as [u'|] eqn:E; [|done].
    injection Hk as ->. destruct (Hwf _ _ E) as [Hid Hlt].
    rewrite lookup_insert_ne by lia. by rewrite E.
Qed.

(** X16. Users created one after the other get consecutive ids, starting at
    [nextId]: no two of them share an id. *)
Theorem created_ids_are_consecutive rows (db : UserDatabase) :
  let r := createUsers rows db in
  id <$> r.1 = (fun i => nextId db + Z.of_nat i) <$> seq 0 (length rows) ∧
  nextId r.2 = nextId db + Z.of_nat (length rows).
Proof.
  cbv zeta. revert db. induction rows as [|row rows IH]; intros db.
  - cbn. split; [done|lia].
  - cbn [createUsers].
    destruct (createUser row.1 row.2 db) as [u db1] eqn:E1.
    destruct (createUsers rows db1) as [us db2] eqn:E2.
    specialize (IH db1). rewrite E2 in IH. cbn [fst snd] in *.
    injection E1 as <- <-. cbn [id nextId] in *. destruct IH as [IH1 IH2].
    split.
    + cbn [length seq fmap list_fmap]. rewrite Z.add_0_r. f_equal.
      change (list_fmap User Z id us) with (id <$> us). rewrite IH1.
      rewrite <- fmap_S_seq, <- list_fmap_compose. apply list_fmap_ext.
      intros i x _. cbn. lia.
    + rewrite IH2. cbn [length]. lia.
Qed.
End DatabaseSpec.

(** ** More on the queue service *)
Module QueueMore.
Import Queue QueueSpec.

(** A settled promise is not touched by any event. *)
Lemma settled_step p o rs ev (s s' : QueueService) :
  Inv s ->
  promises s !! p = Some (mkPromise (Some o) rs) ->
  step ev s = Some s' ->
  promises s' !! p = Some (mkPromise (Some o) rs).
Proof.
  intros HI Hp Hstep. destruct ev as [c k t1 t2|i r|i|].
  - unfold step in Hstep. destruct (pendingRequests s !! k) as [p'|] eqn:Hk.
    + destruct (segment_call_registered c k t1 t2 p' s HI Hk) as (rs' & Hp' & _ & Hseg).
      rewrite Hseg in Hstep. cbn in Hstep. injection Hstep as <-. cbn.
      rewrite list_lookup_insert_ne; [done|]. intros ->. congruence.
    + destruct (processing s) eqn:Hproc.
      * destruct (segment_call_busy c k t1 t2 s Hk Hproc) as [_ Hseg].
        rewrite Hseg in Hstep. cbn in Hstep. injection Hstep as <-. cbn.
        rewrite lookup_app_l; [done|]. by apply lookup_lt_Some in Hp.
      * destruct (inv_loops s HI) as [(_ & Hl & Hq)|(Ht & _)]; [|congruence].
        destruct (segment_call_idle c k t1 t2 s Hk Hproc Hq) as [_ Hseg].
        rewrite Hseg in Hstep. cbn in Hstep. injection Hstep as <-. cbn.
        rewrite lookup_app_l; [done|]. by apply lookup_lt_Some in Hp.
  - destruct (loops s !! i) as [[job|ms]|] eqn:Hi;
      [|unfold step, segment in Hstep; by rewrite Hi in Hstep..].
    destruct (segment_upstream i r job s HI Hi) as (rs' & Hp' & _ & _ & _ & Hseg).
    rewrite Hseg in Hstep. injection Hstep as <-. cbn.
    rewrite list_lookup_insert_ne; [done|]. intros Heq. congruence.
  - destruct (loops s !! i) as [[job|ms]|] eqn:Hi;
      [unfold step, segment in Hstep; by rewrite Hi in Hstep| |
       unfold step, segment in Hstep; by rewrite Hi in Hstep].
    destruct (segment_timer i ms s HI Hi) as (Hl & Hseg).
    rewrite Hseg in Hstep. injection Hstep as <-. by destruct (queue s).
  - destruct (step_close s HI) as
      (s0 & Hs0 & _ & _ & _ & _ & _ & _ & _ & _ & _ & _ & Hkeep & _).
    rewrite Hs0 in Hstep. injection Hstep as <-. rewrite Hkeep; [done|].
    intros Hin. apply list_elem_of_fmap in Hin as (j & -> & Hj).
    destruct (inv_live s HI j) as (rs' & Hp' & _); [|congruence].
    unfold live. apply elem_of_app. by left.
Qed.

Lemma settled_run p o rs evs (s s' : QueueService) :
  Inv s ->
  promises s !! p = Some (mkPromise (Some o) rs) ->
  run evs s = Some s' ->
  promises s' !! p = Some (mkPromise (Some o) rs).
Proof.
  revert s. induction evs as [|ev evs IH]; intros s HI Hp Hrun; cbn in Hrun.
  - by injection Hrun as <-.
  - destruct (step ev s) as [s1|] eqn:Hstep; [|done].
    apply (IH s1); [by eapply Inv_step|by eapply settled_step|done].
Qed.

(** X17. The outcome of a promise is final: once a promise handed out by
    [addUserFetchJob] is settled, no later call, answer of the database,
    timer or [close] changes what its waiters were given. *)
Theorem settled_is_final p o rs evs (s s' : QueueService) :
  reachable s ->
  promises s !! p = Some (mkPromise (Some o) rs) ->
  run evs s = Some s' ->
  promises s' !! p = Some (mkPromise (Some o) rs).
Proof. intros Hs. apply settled_run. by apply reachable_Inv. Qed.

Lemma settled_is_final_witness :
  let s := after (three_calls ++ [EvUpstream 0 (Returns (Some john))]) in
  let s' := after (three_calls ++ [EvUpstream 0 (Returns (Some john)); EvTimer 0;
                                   EvCall 3 1 2000 2000; EvClose]) in
  reachable s ∧
  promises s' !! 0%nat = Some (mkPromise (Some (Fulfilled (Some john))) []).
Proof.
  cbv zeta.
  assert (reachable (after (three_calls ++ [EvUpstream 0 (Returns (Some john))])))
    as Hr.
  { apply (after_reachable _ (after (three_calls ++
                                      [EvUpstream 0 (Returns (Some john))]))).
    vm_compute. reflexivity. }
  split; [exact Hr|].
  apply (settled_is_final 0 (Fulfilled (Some john)) []
           [EvTimer 0; EvCall 3 1 2000 2000; EvClose] _ _ Hr).
  - vm_compute. reflexivity.
  - vm_compute. reflexivity.
Defined.

(** When the loop is idle, no job is left and no key is registered. *)
Lemma idle_empty (s : QueueService) :
  Inv s -> processing s = false ->
  queue s = [] ∧ loops s = [] ∧ pendingRequests s = ∅.
Proof.
  intros HI Hp. destruct (inv_loops s HI) as [(_ & Hl & Hq)|(Ht & _)]; [|congruence].
  split; [done|]. split; [done|]. apply map_empty. intros k.
  destruct (pendingRequests s !! k) as [p|] eqn:Hk; [|done].
  destruct (inv_map s HI k p Hk) as (j & Hj & _).
  unfold live, in_flight in Hj. rewrite Hl, Hq in Hj. by apply elem_of_nil in Hj.
Qed.

(** X18. Whenever [processing] is false the service is at rest: the queue is
    empty, no key is registered as pending, and the status reports no
    waiting job and no pending request. *)
Theorem idle_means_at_rest (s : QueueService) :
  reachable s -> processing s = false ->
  queue s = [] ∧ pendingRequests s = ∅ ∧ in_flight s = [] ∧
  getQueueStatus s = mkStatus 0 false 0 (stats s).
Proof.
  intros Hs Hp. destruct (idle_empty s (reachable_Inv s Hs) Hp) as (Hq & Hl & Hm).
  split; [done|]. split; [done|]. split; [unfold in_flight; by rewrite Hl|].
  unfold getQueueStatus. rewrite Hq, Hm, Hp. done.
Qed.

Lemma idle_means_at_rest_witness :
  let s := after (three_calls ++ Runs.drain [Returns (Some john); Returns (Some jane)]) in
  reachable s ∧ processing s = false ∧ pendingRequests s = ∅.
Proof.
  cbv zeta.
  assert (reachable (after (three_calls ++
            Runs.drain [Returns (Some john); Returns (Some jane)]))) as Hr.
  { apply (after_reachable _ (after (three_calls ++
             Runs.drain [Returns (Some john); Returns (Some jane)]))).
    vm_compute. reflexivity. }
  split; [exact Hr|]. split; [vm_compute; reflexivity|].
  apply (idle_means_at_rest _ Hr). vm_compute. reflexivity.
Defined.

(** The loop run to its end, from a call in flight. *)
Lemma drain_spec (rs : list UpstreamResult) :
  ∀ (s : QueueService) j,
    Inv s -> loops s = [AwaitUpstream j] ->
    length rs = S (length (queue s)) ->
    ∃ s', run (Runs.drain rs) s = Some s' ∧ Inv s' ∧
      processing s' = false ∧
      upstream s' = upstream s ++ (userId <$> queue s) ∧
      processed (stats s') + failed (stats s')
      = processed (stats s) + failed (stats s) + Z.of_nat (length rs) ∧
      Forall2 (fun job r =>
                 promises s' !! promise job
                 = Some (mkPromise (Some (outcome_of r)) []))
              (j :: queue s) rs.
Proof.
  induction rs as [|r rs IH]; intros s j HI Hl Hlen; [done|].
  assert (loops s !! 0%nat = Some (AwaitUpstream j)) as Hi by (by rewrite Hl).
  destruct (segment_upstream 0 r j s HI Hi) as (ws & Hp & _ & _ & _ & Hseg).
  match type of Hseg with _ = Some ?x => set (s1 := x) in * end.
  assert (Inv s1) as HI1 by (by eapply Inv_step).
  assert (promises s1 !! promise j = Some (mkPromise (Some (outcome_of r)) []))
    as Hj1.
  { subst s1. cbn. apply list_lookup_insert_eq. by apply lookup_lt_Some in Hp. }
  assert (loops s1 !! 0%nat = Some (AwaitDelay 10)) as Hi1 by done.
  destruct (segment_timer 0 10 s1 HI1 Hi1) as (_ & Hseg1).
  change (queue s1) with (queue s) in Hseg1.
  change (Runs.drain (r :: rs))
    with (EvUpstream 0 r :: EvTimer 0 :: Runs.drain rs).
  cbn [run]. rewrite Hseg, Hseg1.
  destruct (queue s) as [|j2 rest] eqn:Hq.
  - destruct rs; [|done]. cbn [Runs.drain flat_map run].
    eexists. split; [reflexivity|].
    split. { eapply Inv_step; [exact HI1|]. rewrite Hseg1. reflexivity. }
    split; [done|]. cbn. split; [by rewrite app_nil_r|].
    split; [destruct r; cbn; lia|].
    constructor; [|constructor]. exact Hj1.
  - match type of Hseg1 with _ = Some ?x => set (s2 := x) in * end.
    assert (Inv s2) as HI2 by (by eapply Inv_step).
    destruct (IH s2 j2 HI2 eq_refl) as (s' & Hrun & HI' & Hidle & Hup & Hcnt & Hall).
    { cbn in Hlen |- *. lia. }
    exists s'. split; [done|]. split; [done|]. split; [done|].
    split; [rewrite Hup; cbn; by rewrite <- app_assoc|].
    split; [rewrite Hcnt; destruct r; cbn; lia|].
    constructor; [|exact Hall].
    apply (settled_run _ _ _ (Runs.drain rs) s2); [done| |done].
    eapply settled_step; [exact HI1|exact Hj1|exact Hseg1].
Qed.

(** X19. The loop always finishes its queue: with one call in flight and
    [n] jobs waiting, [n + 1] answers of the database (each followed by the
    timer) bring the service to rest; the waiting jobs are handed to the
    database in the order they were queued, every job gets the outcome of
    its own answer, and each answer is counted once, as processed or as
    failed. *)
Theorem queue_drains_in_order (rs : list UpstreamResult) (s : QueueService) j :
  reachable s ->
  loops s = [AwaitUpstream j] ->
  length rs = S (length (queue s)) ->
  ∃ s', run (Runs.drain rs) s = Some s' ∧
    processing s' = false ∧ queue s' = [] ∧ pendingRequests s' = ∅ ∧
    upstream s' = upstream s ++ (userId <$> queue s) ∧
    processed (stats s') + failed (stats s')
    = processed (stats s) + failed (stats s) + Z.of_nat (length rs) ∧
    Forall2 (fun job r =>
               promises s' !! promise job
               = Some (mkPromise (Some (outcome_of r)) []))
            (j :: queue s) rs.
Proof.
  intros Hs Hl Hlen.
  destruct (drain_spec rs s j (reachable_Inv s Hs) Hl Hlen)
    as (s' & Hrun & HI' & Hidle & Hup & Hcnt & Hall).
  destruct (idle_empty s' HI' Hidle) as (Hq & _ & Hm).
  exists s'. done.
Qed.

Lemma queue_drains_in_order_witness :
  reachable (after three_calls) ∧
  upstream (after (three_calls ++
                   Runs.drain [Returns (Some john); Throws ThrownOther]))
  = [1; 2].
Proof.
  assert (reachable (after three_calls)) as Hr.
  { apply (after_reachable three_calls (after three_calls)). vm_compute. reflexivity. }
  split; [exact Hr|].
  destruct (queue_drains_in_order [Returns (Some john); Throws ThrownOther]
              (after three_calls) (mkJob (1, 1000) 1 1000 0) Hr)
    as (s' & Hrun & _); [vm_compute; reflexivity|vm_compute; reflexivity|].
  vm_compute. reflexivity.
Defined.

(** X20. [close] does not touch the job whose call of the database is in
    flight: its promise stays pending with its waiters, the loop stays
    suspended on it, and when the database answers afterwards those waiters
    observe that answer, not the shutdown error. The counters are not reset
    either. *)
Theorem close_spares_the_call_in_flight i j (s s' : QueueService) :
  reachable s ->
  loops s !! i = Some (AwaitUpstream j) ->
  step EvClose s = Some s' ->
  loops s' = loops s ∧ stats s' = stats s ∧ upstream s' = upstream s ∧
  ∃ ws, promises s !! promise j = Some (mkPromise None ws) ∧
        promises s' !! promise j = Some (mkPromise None ws) ∧
        ∀ r s'', step (EvUpstream i r) s' = Some s'' ->
          observed s'' = observed s' ++ map (fun w => mkObs w (outcome_of r) None) ws ∧
          promises s'' !! promise j = Some (mkPromise (Some (outcome_of r)) []).
Proof.
  intros Hs Hi Hstep. pose proof (reachable_Inv s Hs) as HI.
  pose proof (Inv_step _ _ _ HI Hstep) as HI'.
  destruct (step_close s HI) as
    (s0 & Hs0 & _ & _ & _ & Hst & Hl & Hu & _ & _ & _ & _ & Hkeep & _).
  rewrite Hs0 in Hstep. injection Hstep as <-.
  split; [done|]. split; [done|]. split; [done|].
  destruct (Inv_single_loop _ _ _ HI Hi) as (-> & Hl1 & _).
  assert (j ∈ live s) as Hlive.
  { unfold live, in_flight. rewrite Hl1. cbn. apply elem_of_app. right. by left. }
  destruct (inv_live s HI j Hlive) as (ws & Hp & _).
  assert (promise j ∉ promise <$> queue s) as Hnq.
  { pose proof (inv_nodup s HI) as Hnd. unfold live, in_flight in Hnd.
    rewrite Hl1 in Hnd. cbn in Hnd. rewrite fmap_app in Hnd.
    apply NoDup_app in Hnd as (_ & Hd & _). intros Hin. apply (Hd _ Hin). by left. }
  exists ws. split; [done|]. split; [by rewrite Hkeep|].
  intros r s'' Hstep'.
  assert (loops s0 !! 0%nat = Some (AwaitUpstream j)) as Hi0 by (by rewrite Hl).
  destruct (completion 0 r j s0 s'' HI' Hi0 Hstep')
    as (ws' & Hp' & _ & _ & _ & Hobs & Hp'' & _).
  rewrite Hkeep, Hp in Hp' by done. injection Hp' as <-. done.
Qed.

Lemma close_spares_the_call_in_flight_witness :
  reachable (after three_calls) ∧
  promises (after (three_calls ++ [EvClose])) !! 0%nat
  = Some (mkPromise None [mkWaiter 0 1; mkWaiter 1 1]).
Proof.
  assert (reachable (after three_calls)) as Hr.
  { apply (after_reachable three_calls (after three_calls)). vm_compute. reflexivity. }
  split; [exact Hr|].
  destruct (close_spares_the_call_in_flight 0 (mkJob (1, 1000) 1 1000 0)
              (after three_calls) (after (three_calls ++ [EvClose])) Hr)
    as (_ & _ & _ & ws & Hp & Hp' & _);
    [vm_compute; reflexivity|vm_compute; reflexivity|].
  etrans; [exact Hp'|]. rewrite <- Hp. vm_compute. reflexivity.
Defined.

Lemma accounting_step ev (s s' : QueueService) :
  Inv s -> step ev s = Some s' ->
  processed (stats s) + failed (stats s) + Z.of_nat (length (in_flight s))
  = Z.of_nat (length (upstream s)) ∧
  Z.of_nat (length (queue s)) <= pending (stats s) ->
  processed (stats s') + failed (stats s') + Z.of_nat (length (in_flight s'))
  = Z.of_nat (length (upstream s')) ∧
  Z.of_nat (length (queue s')) <= pending (stats s').
Proof.
  intros HI Hstep [Hacc Hq]. destruct ev as [c k t1 t2|i r|i|].
  - unfold step in Hstep. destruct (pendingRequests s !! k) as [p|] eqn:Hk.
    + destruct (segment_call_registered c k t1 t2 p s HI Hk) as (rs & _ & _ & Hseg).
      rewrite Hseg in Hstep. cbn in Hstep. injection Hstep as <-. done.
    + destruct (processing s) eqn:Hproc.
      * destruct (segment_call_busy c k t1 t2 s Hk Hproc) as [_ Hseg].
        rewrite Hseg in Hstep. cbn in Hstep. injection Hstep as <-.
        unfold in_flight in *. cbn. rewrite length_app. cbn. lia.
      * destruct (inv_loops s HI) as [(_ & Hl & Hq0)|(Ht & _)]; [|congruence].
        destruct (segment_call_idle c k t1 t2 s Hk Hproc Hq0) as [_ Hseg].
        rewrite Hseg in Hstep. cbn in Hstep. injection Hstep as <-.
        unfold in_flight in *. rewrite Hl in Hacc. rewrite Hq0 in Hq.
        cbn in *. rewrite Hl. cbn. rewrite length_app. cbn. lia.
  - destruct (loops s !! i) as [[job|ms]|] eqn:Hi;
      [|unfold step, segment in Hstep; by rewrite Hi in Hstep..].
    destruct (segment_upstream i r job s HI Hi) as (rs & _ & _ & Hl & _ & Hseg).
    rewrite Hseg in Hstep. injection Hstep as <-.
    unfold in_flight in *. rewrite Hl in Hacc. cbn in *.
    destruct r; cbn; lia.
  - destruct (loops s !! i) as [[job|ms]|] eqn:Hi;
      [unfold step, segment in Hstep; by rewrite Hi in Hstep| |
       unfold step, segment in Hstep; by rewrite Hi in Hstep].
    destruct (segment_timer i ms s HI Hi) as (Hl & Hseg).
    rewrite Hseg in Hstep. injection Hstep as <-.
    unfold in_flight in *. rewrite Hl in Hacc. cbn in Hacc.
    destruct (queue s) as [|job rest]; cbn in *; rewrite ?length_app; cbn; lia.
  - destruct (step_close s HI) as
      (s0 & Hs0 & Hq0 & _ & _ & Hst & Hl & Hu & _).
    rewrite Hs0 in Hstep. injection Hstep as <-.
    unfold in_flight in *. rewrite Hst, Hl, Hu, Hq0. cbn. lia.
Qed.

(** X21. The counters of the queue add up: the calls of the database that
    have returned are each counted once, as processed or as failed, so
    [processed + failed] plus the call in flight is the number of calls
    issued; and the number of waiting jobs that the status reports never
    exceeds [pending]. *)
Theorem counters_add_up (s : QueueService) :
  reachable s ->
  processed (stats s) + failed (stats s) + Z.of_nat (length (in_flight s))
  = Z.of_nat (length (upstream s)) ∧
  waiting (getQueueStatus s) <= pending (qs_stats (getQueueStatus s)).
Proof.
  induction 1 as [|s ev s' Hs IH Hstep]; [done|].
  by apply (accounting_step ev s s' (reachable_Inv s Hs) Hstep).
Qed.

Lemma counters_add_up_witness :
  reachable (after three_calls) ∧
  processed (stats (after three_calls)) + failed (stats (after three_calls)) + 1 = 1.
Proof.
  assert (reachable (after three_calls)) as Hr.
  { apply (after_reachable three_calls (after three_calls)). vm_compute. reflexivity. }
  split; [exact Hr|].
  apply (counters_add_up (after three_calls) Hr).
Defined.
End QueueMore.
